(** * Backup export / import and snapshot comparison

    A shallow embedding of [sentry/runner/commands/backup.py] (the dependency
    resolver, the datetime-safe JSON encoder, the import and export commands)
    and of the comparator framework exercised by
    [tests/sentry/backup/test_comparators.py]. *)

From Stdlib Require Import ZArith Lia List Ascii Relations ListDec.
From Stdlib Require String.
From stdpp Require Import base decidable list gmap strings.

(** ** Text helpers shared by every component *)

Module Text.

(** [needle in haystack] of Python, on byte strings. *)
Fixpoint contains (needle haystack : string) : bool :=
  String.prefix needle haystack ||
  match haystack with
  | EmptyString => false
  | String _ rest => contains needle rest
  end.

(** [sep.join(parts)]. *)
Definition join (sep : string) (parts : list string) : string :=
  String.concat sep parts.

(** [c.lower()] on one ASCII character: only [A]..[Z] change. *)
Definition lower_ascii (c : ascii) : ascii :=
  let n := nat_of_ascii c in
  if (65 <=? n)%nat && (n <=? 90)%nat then ascii_of_nat (n + 32) else c.

(** [s.lower()] for ASCII text. *)
Fixpoint lower (s : string) : string :=
  match s with
  | EmptyString => EmptyString
  | String c rest => String (lower_ascii c) (lower rest)
  end.

(** [s.split(sep)] for a one-character separator: always at least one
    piece, empty pieces kept. *)
Fixpoint split (sep : ascii) (s : string) : list string :=
  match s with
  | EmptyString => [EmptyString]
  | String c rest =>
      if Ascii.eqb c sep then EmptyString :: split sep rest
      else match split sep rest with
           | piece :: pieces => String c piece :: pieces
           | [] => [String c EmptyString]
           end
  end.

Lemma string_leb_trans (a b c : string) :
  String.leb a b = true → String.leb b c = true → String.leb a c = true.
Proof.
  unfold String.leb. revert b c.
  induction a as [|x a IH]; intros [|y b] [|z c]; simpl; try done.
  unfold Ascii.compare.
  destruct (N.compare_spec (N_of_ascii x) (N_of_ascii y)) as [Hxy|Hxy|Hxy];
    destruct (N.compare_spec (N_of_ascii y) (N_of_ascii z)) as [Hyz|Hyz|Hyz];
    try done.
  - rewrite Hxy, Hyz, N.compare_refl. apply IH.
  - rewrite Hxy.
    by destruct (N.compare_spec (N_of_ascii y) (N_of_ascii z)); [lia| |lia].
  - rewrite <- Hyz.
    by destruct (N.compare_spec (N_of_ascii x) (N_of_ascii y)); [lia| |lia].
  - by destruct (N.compare_spec (N_of_ascii x) (N_of_ascii z)); [lia| |lia].
Qed.

Lemma append_assoc (a b c : string) : (a +:+ b) +:+ c = a +:+ b +:+ c.
Proof.
  induction a as [|x a IH]; [done|].
  change (String x ((a +:+ b) +:+ c) = String x (a +:+ b +:+ c)). by rewrite IH.
Qed.

Lemma append_empty_r (a : string) : a +:+ "" = a.
Proof.
  induction a as [|x a IH]; [done|].
  change (String x (a +:+ "") = String x a). by rewrite IH.
Qed.

Lemma prefix_append (x rest : string) : String.prefix x (x +:+ rest) = true.
Proof.
  induction x as [|c x IH]; simpl; [by destruct rest|].
  destruct (ascii_dec c c); [done|congruence].
Qed.

Lemma contains_append (before x rest : string) :
  contains x (before +:+ x +:+ rest) = true.
Proof.
  induction before as [|c before IH].
  - change (contains x (x +:+ rest) = true).
    pose proof (prefix_append x rest) as Hp.
    by destruct (x +:+ rest); cbn [contains]; rewrite Hp.
  - change (contains x (String c (before +:+ x +:+ rest)) = true).
    cbn [contains]. rewrite IH. apply orb_true_r.
Qed.

Lemma prefix_append_r (x s rest : string) :
  String.prefix x s = true → String.prefix x (s +:+ rest) = true.
Proof.
  revert s. induction x as [|c x IH]; intros [|d s]; simpl; try done.
  - by destruct rest.
  - destruct (ascii_dec c d); [apply IH|done].
Qed.

Lemma contains_append_r (x s rest : string) :
  contains x s = true → contains x (s +:+ rest) = true.
Proof.
  induction s as [|c s IH]; cbn [contains].
  - rewrite orb_false_r. intros Hp.
    apply (prefix_append_r _ _ rest) in Hp.
    change ("" +:+ rest) with rest in *. by destruct rest; cbn [contains]; rewrite Hp.
  - intros [Hp|Hc]%orb_true_iff.
    + apply (prefix_append_r _ _ rest) in Hp.
      change (contains x (String c (s +:+ rest)) = true). cbn [contains].
      change (String c (s +:+ rest)) with (String c s +:+ rest). by rewrite Hp.
    + change (contains x (String c (s +:+ rest)) = true). cbn [contains].
      rewrite IH by done. apply orb_true_r.
Qed.

Lemma contains_append_l (x before s : string) :
  contains x s = true → contains x (before +:+ s) = true.
Proof.
  intros Hs. induction before as [|c before IH]; [done|].
  change (contains x (String c (before +:+ s)) = true). cbn [contains].
  rewrite IH. apply orb_true_r.
Qed.

Lemma join_splits sep (x : string) (parts : list string) :
  x ∈ parts → ∃ before rest, join sep parts = before +:+ x +:+ rest.
Proof.
  unfold join. induction parts as [|y parts IH]; intros Hx;
    [by apply elem_of_nil in Hx|].
  apply elem_of_cons in Hx as [->|Hx].
  - destruct parts as [|z parts]; simpl.
    + exists "", "". change (y = y +:+ ""). by rewrite append_empty_r.
    + by exists "", (sep +:+ String.concat sep (z :: parts)).
  - destruct (IH Hx) as (before & rest & Heq).
    destruct parts as [|z parts]; [by apply elem_of_nil in Hx|].
    exists (y +:+ sep +:+ before), rest.
    change (String.concat sep (y :: z :: parts))
      with (y +:+ sep +:+ String.concat sep (z :: parts)).
    by rewrite Heq, !append_assoc.
Qed.

Lemma contains_join sep (x : string) (parts : list string) :
  x ∈ parts → contains x (join sep parts) = true.
Proof.
  intros Hx. destruct (join_splits sep x parts Hx) as (before & rest & ->).
  apply contains_append.
Qed.

End Text.

(** ** Dependency resolver: [sort_dependencies] *)

Module Resolver.

(** The identity of a model class: [model._meta.app_label] and
    [model._meta.object_name] (which is [model.__name__]). *)
Record ModelId := { app_label : string; object_name : string }.

#[global] Instance ModelId_eq_dec : EqDecision ModelId.
Proof. solve_decision. Defined.

#[global] Instance ModelId_countable : Countable ModelId.
Proof.
  refine (inj_countable' (fun m => (app_label m, object_name m))
            (fun p => {| app_label := p.1; object_name := p.2 |}) _).
  by intros [].
Defined.

(** What the resolver reads of a field object. *)
Inductive FieldClass :=
| ConcreteField
| ManyToManyField (through_auto_created : bool)
| ReverseRelation.

Record Field := {
  field_name : string;
  field_class : FieldClass;
  (** [getattr(field.remote_field, "model", None)] *)
  remote_model : option ModelId;
}.

(** What the commands read of a model class. *)
Record Model := {
  ident : ModelId;
  (** [None]: the class has no [natural_key]; [Some deps]: the models named
      by [natural_key.dependencies] ([[]] when that attribute is missing). *)
  natural_key : option (list ModelId);
  (** [model._meta.fields] *)
  meta_fields : list Field;
  (** [model._meta.get_fields()] *)
  meta_get_fields : list Field;
  (** [getattr(model, "__include_in_export__", True)] *)
  include_in_export : bool;
  (** [model._meta.proxy] *)
  meta_proxy : bool;
}.

Record AppConfig := { label : string; get_models : list Model }.

Definition EXCLUDED_APPS : gset string := {[ "auth"; "contenttypes" ]}.

Definition Actor : ModelId := {| app_label := "sentry"; object_name := "Actor" |}.
Definition Team : ModelId := {| app_label := "sentry"; object_name := "Team" |}.
Definition User : ModelId := {| app_label := "sentry"; object_name := "User" |}.

Definition isinstance_ManyToManyField (field : Field) : bool :=
  match field_class field with
  | ManyToManyField _ => true
  | _ => false
  end.

(** Lines 77-82: the explicitly declared dependencies. *)
Definition natural_key_deps (model : Model) : list ModelId :=
  match natural_key model with
  | Some deps => deps
  | None => []
  end.

(** Lines 86-95: what one entry of [model._meta.fields] appends to [deps]. *)
Definition fk_dep (model : ModelId) (field : Field) : list ModelId :=
  match remote_model field with
  | Some rel_model =>
      if bool_decide (rel_model ≠ model) then
        if bool_decide (model = Actor)
           && (bool_decide (rel_model = Team) || bool_decide (rel_model = User))
        then []
        else [rel_model]
      else []
  | None => []
  end.

(** Lines 103-106: what one many-to-many field appends to [deps]. *)
Definition m2m_dep (model : ModelId) (field : Field) : list ModelId :=
  match remote_model field with
  | Some rel_model => if bool_decide (rel_model ≠ model) then [rel_model] else []
  | None => []
  end.

(** Lines 100-102. *)
Definition many_to_many_fields (model : Model) : list Field :=
  List.filter isinstance_ManyToManyField (meta_get_fields model).

(** The [deps] list appended for [model] at line 107. *)
Definition model_deps (model : Model) : list ModelId :=
  natural_key_deps model
  ++ flat_map (fk_dep (ident model)) (meta_fields model)
  ++ flat_map (m2m_dep (ident model)) (many_to_many_fields model).

(** Lines 68-75: the models of the apps that are not excluded, in discovery
    order. *)
Definition discovered (apps : list AppConfig) : list Model :=
  flat_map get_models
    (List.filter (fun app_config => bool_decide (label app_config ∉ EXCLUDED_APPS)) apps).

Definition collect_dependencies (apps : list AppConfig) : list (ModelId * list ModelId) :=
  (fun model => (ident model, model_deps model)) <$> discovered apps.

Definition collect_models (apps : list AppConfig) : gset ModelId :=
  list_to_set (ident <$> discovered apps).

(** Lines 128-131: every dependency is outside [models] or already placed. *)
Definition found (models : gset ModelId) (model_list deps : list ModelId) : bool :=
  forallb (fun d => bool_decide (d ∉ models) || bool_decide (d ∈ model_list)) deps.

(** Lines 122-136, one full scan.  [pending] lists the entries in the order
    in which [model_dependencies.pop()] hands them out, that is the work list
    read from its end. *)
Fixpoint scan (models : gset ModelId) (pending : list (ModelId * list ModelId))
    (model_list : list ModelId) (skipped : list (ModelId * list ModelId))
    (changed : bool) : list ModelId * list (ModelId * list ModelId) * bool :=
  match pending with
  | [] => (model_list, skipped, changed)
  | (model, deps) :: rest =>
      if found models model_list deps
      then scan models rest (model_list ++ [model]) skipped true
      else scan models rest model_list (skipped ++ [(model, deps)]) changed
  end.

(** [sorted(skipped, key=lambda obj: obj[0].__name__)]: a stable sort on the
    class name, strings compared character by character. *)
Fixpoint insert_by_name (x : ModelId * list ModelId)
    (l : list (ModelId * list ModelId)) : list (ModelId * list ModelId) :=
  match l with
  | [] => [x]
  | y :: l' =>
      if String.leb (object_name x.1) (object_name y.1) then x :: y :: l'
      else y :: insert_by_name x l'
  end.

Definition sorted_by_name (l : list (ModelId * list ModelId)) :
    list (ModelId * list ModelId) :=
  foldr insert_by_name [] l.

(** [f"{model._meta.app_label}.{model._meta.object_name}"] *)
Definition model_label (model : ModelId) : string :=
  app_label model +:+ "." +:+ object_name model.

(** Lines 139-143. *)
Definition error_message (skipped : list (ModelId * list ModelId)) : string :=
  "Can't resolve dependencies for "
  +:+ Text.join ", " ((fun entry => model_label entry.1) <$> sorted_by_name skipped)
  +:+ " in serialized app list.".

Inductive outcome :=
| Return (model_list : list ModelId)
| RuntimeError (message : string)
| OutOfFuel.

(** Lines 119-147, the outer loop.  Every iteration that does not raise
    shortens the work list, so [length model_dependencies] iterations are
    enough ([resolve_total] below). *)
Fixpoint resolve (fuel : nat) (models : gset ModelId)
    (model_dependencies : list (ModelId * list ModelId))
    (model_list : list ModelId) : outcome :=
  match model_dependencies with
  | [] => Return model_list
  | _ :: _ =>
      match fuel with
      | O => OutOfFuel
      | S fuel' =>
          match scan models (rev model_dependencies) model_list [] false with
          | (model_list', skipped, true) => resolve fuel' models skipped model_list'
          | (_, skipped, false) => RuntimeError (error_message skipped)
          end
      end
  end.

(** Lines 109-147 on a work list in discovery order. *)
Definition sort_work_list (models : gset ModelId)
    (model_dependencies : list (ModelId * list ModelId)) : outcome :=
  resolve (length model_dependencies) models (rev model_dependencies) [].

Definition sort_dependencies (apps : list AppConfig) : outcome :=
  sort_work_list (collect_models apps) (collect_dependencies apps).

(** *** Specification vocabulary *)

(** [dependency_edge models work a b]: the work list records [b] among the
    dependencies of [a], and [b] is one of the considered models. *)
Definition dependency_edge (models : gset ModelId)
    (work : list (ModelId * list ModelId)) (a b : ModelId) : Prop :=
  ∃ deps, (a, deps) ∈ work ∧ b ∈ deps ∧ b ∈ models.

(** No model reaches itself along dependency edges. *)
Definition acyclic (models : gset ModelId)
    (work : list (ModelId * list ModelId)) : Prop :=
  ∀ x, ¬ tc (dependency_edge models work) x x.

(** A decidable sufficient condition for [acyclic]: a numbering that
    decreases along every edge. *)
Definition ranked_by (rank : ModelId → nat) (models : gset ModelId)
    (work : list (ModelId * list ModelId)) : bool :=
  forallb (fun entry =>
    forallb (fun d => bool_decide (d ∉ models) || (rank d <? rank entry.1)%nat)
      entry.2) work.

(** Every placed model comes strictly after all its considered
    dependencies. *)
Definition dependencies_first (models : gset ModelId)
    (work : list (ModelId * list ModelId)) (model_list : list ModelId) : Prop :=
  ∀ j model deps d,
    model_list !! j = Some model → (model, deps) ∈ work → d ∈ deps → d ∈ models →
    ∃ i, i < j ∧ model_list !! i = Some d.

(** No entry of the work list is ready. *)
Definition stuck (models : gset ModelId) (model_list : list ModelId)
    (work : list (ModelId * list ModelId)) : Prop :=
  Forall (fun entry => found models model_list entry.2 = false) work.

(** The dependencies of an entry that keep it from being placed. *)
Definition unmet (models : gset ModelId) (model_list deps : list ModelId) :
    list ModelId :=
  List.filter (fun d => bool_decide (d ∈ models) && bool_decide (d ∉ model_list)) deps.

(** The order of the names in the error message. *)
Definition name_sorted (named : list ModelId) : Prop :=
  ∀ i j a b, i < j → named !! i = Some a → named !! j = Some b →
    String.leb (object_name a) (object_name b) = true.

(** The dependency edges [sort_dependencies] works with, suppressed edges
    already left out. *)
Definition considered_edge (apps : list AppConfig) : relation ModelId :=
  dependency_edge (collect_models apps) (collect_dependencies apps).

(** [name_sorted] on the entries of a work list. *)
Definition entries_sorted (l : list (ModelId * list ModelId)) : Prop :=
  ∀ i j x y, i < j → l !! i = Some x → l !! j = Some y →
    String.leb (object_name x.1) (object_name y.1) = true.

(** *** The dependency graph as the specification words it *)

(** A considered model: one declared by an app that is not excluded. *)
Definition considered (apps : list AppConfig) (model : Model) : Prop :=
  ∃ app_config,
    app_config ∈ apps ∧ (label app_config ∉ EXCLUDED_APPS) ∧
    model ∈ get_models app_config.

(** The manually suppressed edges. *)
Definition suppressed (a b : ModelId) : Prop :=
  a = Actor ∧ (b = Team ∨ b = User).

(** The specified edge [a -> b] between two considered models: a direct
    reference field of [a] names another model [b] and the pair is not
    suppressed, or a many-to-many field of [a] names another model [b] and
    its join model is implicit. *)
Definition specified_edge (apps : list AppConfig) (a b : ModelId) : Prop :=
  ∃ model target field,
    considered apps model ∧ ident model = a ∧
    considered apps target ∧ ident target = b ∧
    a ≠ b ∧ remote_model field = Some b ∧
    ((field ∈ meta_fields model ∧ ¬ suppressed a b) ∨
     (field ∈ meta_get_fields model ∧ field_class field = ManyToManyField true)).

(** What the claim asks of a returned sequence. *)
Definition specified_order (apps : list AppConfig) (model_list : list ModelId) : Prop :=
  NoDup model_list ∧
  (∀ m, m ∈ model_list ↔ ∃ model, considered apps model ∧ ident model = m) ∧
  (∀ a b, specified_edge apps a b →
     ∃ i j, model_list !! i = Some b ∧ model_list !! j = Some a ∧ i ≤ j).

(** A registry in which no declared dependency comes from a natural key and
    every many-to-many field has an implicit join model. *)
Definition implicit_joins_only (apps : list AppConfig) : Prop :=
  ∀ model, considered apps model →
    natural_key_deps model = [] ∧
    ∀ field, field ∈ meta_get_fields model →
      isinstance_ManyToManyField field = true →
      field_class field = ManyToManyField true.

(** *** Sample registries *)

(** A model whose only relations are foreign keys to [targets]. *)
Definition plain (app name : string) (targets : list ModelId) : Model :=
  {| ident := {| app_label := app; object_name := name |};
     natural_key := None;
     meta_fields :=
       (fun target => {| field_name := "ref"; field_class := ConcreteField;
                         remote_model := Some target |}) <$> targets;
     meta_get_fields := [];
     include_in_export := true;
     meta_proxy := false |}.

Definition in_app (name : string) : ModelId :=
  {| app_label := "app"; object_name := name |}.

(** [D -> C -> B -> A] discovered out of order, [D] also referring to
    itself, next to an excluded app. *)
Definition chain_apps : list AppConfig :=
  [ {| label := "app";
       get_models := [ plain "app" "C" [in_app "B"]; plain "app" "B" [in_app "A"];
                       plain "app" "A" []; plain "app" "D" [in_app "C"; in_app "D"] ] |};
    {| label := "auth"; get_models := [ plain "auth" "Permission" [] ] |} ].

(** A numbering of [chain_apps] that decreases along its edges. *)
Definition chain_rank (m : ModelId) : nat :=
  nat_of_ascii (default "000"%char (String.get 0 (object_name m))).

(** Two registries with the same cycle [Y <-> Z]; [D] waits for [Y] in the
    first and for [Z] in the second. *)
Definition cycle_apps (waits_for : string) : list AppConfig :=
  [ {| label := "app";
       get_models := [ plain "app" "Z" [in_app "Y"]; plain "app" "Y" [in_app "Z"];
                       plain "app" "D" [in_app waits_for] ] |} ].

(** [Project.teams = ManyToManyField(Team, through=ProjectTeam)]: a
    many-to-many relation with an explicitly modelled join entity. *)
Definition Project : Model :=
  {| ident := {| app_label := "sentry"; object_name := "Project" |};
     natural_key := None;
     meta_fields := [];
     meta_get_fields :=
       [ {| field_name := "teams"; field_class := ManyToManyField false;
            remote_model := Some Team |} ];
     include_in_export := true;
     meta_proxy := false |}.

(** [Group.members = ManyToManyField(Member, through=Membership)],
    [Member.group = ForeignKey(Group)] and the join model [Membership] with
    a foreign key to each.  [get_fields()] lists the reverse relations
    first. *)
Definition primary_key : Field :=
  {| field_name := "id"; field_class := ConcreteField; remote_model := None |}.

Definition foreign_key (name : string) (target : ModelId) : Field :=
  {| field_name := name; field_class := ConcreteField; remote_model := Some target |}.

Definition reverse_relation (name : string) (source : ModelId) : Field :=
  {| field_name := name; field_class := ReverseRelation; remote_model := Some source |}.

Definition Group : Model :=
  {| ident := in_app "Group";
     natural_key := None;
     meta_fields := [primary_key];
     meta_get_fields :=
       [ reverse_relation "member" (in_app "Member");
         reverse_relation "membership" (in_app "Membership");
         primary_key;
         {| field_name := "members"; field_class := ManyToManyField false;
            remote_model := Some (in_app "Member") |} ];
     include_in_export := true;
     meta_proxy := false |}.

Definition Member : Model :=
  {| ident := in_app "Member";
     natural_key := None;
     meta_fields := [primary_key; foreign_key "group" (in_app "Group")];
     meta_get_fields :=
       [ reverse_relation "group" (in_app "Group");
         reverse_relation "membership" (in_app "Membership");
         primary_key; foreign_key "group" (in_app "Group") ];
     include_in_export := true;
     meta_proxy := false |}.

Definition Membership : Model :=
  {| ident := in_app "Membership";
     natural_key := None;
     meta_fields :=
       [ primary_key; foreign_key "group" (in_app "Group");
         foreign_key "member" (in_app "Member") ];
     meta_get_fields :=
       [ primary_key; foreign_key "group" (in_app "Group");
         foreign_key "member" (in_app "Member") ];
     include_in_export := true;
     meta_proxy := false |}.

Definition membership_apps : list AppConfig :=
  [ {| label := "app"; get_models := [Group; Member; Membership] |} ].

(** A numbering of [membership_apps] that decreases along the specified
    edges. *)
Definition membership_rank (m : ModelId) : nat := String.length (object_name m).

(** Discovery order already puts every considered dependency first. *)
Definition already_ordered (models : gset ModelId)
    (work : list (ModelId * list ModelId)) : Prop :=
  ∀ k entry d, work !! k = Some entry → d ∈ entry.2 → d ∈ models →
    d ∈ (take k work).*1.

(** [A], [B -> A], [C -> B, A], discovered in that order. *)
Definition ordered_apps : list AppConfig :=
  [ {| label := "app";
       get_models := [ plain "app" "A" []; plain "app" "B" [in_app "A"];
                       plain "app" "C" [in_app "B"; in_app "A"] ] |} ].

(** The work list with the dependencies outside [models] dropped. *)
Definition considered_only (models : gset ModelId)
    (work : list (ModelId * list ModelId)) : list (ModelId * list ModelId) :=
  (fun entry => (entry.1, List.filter (fun d => bool_decide (d ∈ models)) entry.2))
    <$> work.

(** *** A finite set closed under successors contains a cycle *)

Section cycles.
Context {A : Type} `{EqDecision A} (R : relation A).

Lemma walk_inside (nodes : list A) :
  (∀ x, x ∈ nodes → ∃ y, y ∈ nodes ∧ R x y) →
  ∀ n x, x ∈ nodes →
    ∃ p, length p = S n ∧ p !! 0%nat = Some x ∧ Forall (.∈ nodes) p ∧
         ∀ i j a b, (i < j)%nat → p !! i = Some a → p !! j = Some b → tc R a b.
Proof.
  intros Hstep. induction n as [|n IH]; intros x Hx.
  - exists [x]. repeat split; [by constructor; [|constructor]|].
    intros i [|j] a b Hij Ha Hb; [lia|done].
  - destruct (Hstep x Hx) as (y & Hy & Hxy).
    destruct (IH y Hy) as (p & Hlen & Hhd & Hall & Hchain).
    exists (x :: p). repeat split; [simpl; lia|by constructor|].
    intros i [|j] a b Hij Ha Hb; [lia|]. simpl in Hb.
    destruct i as [|i]; simpl in Ha.
    + injection Ha as <-. destruct j as [|j].
      * rewrite Hhd in Hb. injection Hb as <-. by apply tc_once.
      * eapply tc_l; [exact Hxy|]. by apply (Hchain 0%nat (S j)); [lia| |].
    + by apply (Hchain i j); [lia| |].
Qed.

Lemma closed_set_has_cycle (nodes : list A) :
  nodes ≠ [] → (∀ x, x ∈ nodes → ∃ y, y ∈ nodes ∧ R x y) → ∃ x, tc R x x.
Proof.
  intros Hne Hstep. destruct nodes as [|x0 nodes']; [done|].
  destruct (walk_inside _ Hstep (length (x0 :: nodes')) x0)
    as (p & Hlen & _ & Hall & Hchain); [left|].
  destruct (decide (NoDup p)) as [Hnd|Hnd].
  - exfalso. assert (length p ≤ length (x0 :: nodes')); [|lia].
    apply submseteq_length, NoDup_submseteq; [done|].
    by apply Forall_forall.
  - rewrite NoDup_ListNoDup in Hnd.
    apply not_NoDup in Hnd as (a & l1 & l2 & l3 & ->).
    + exists a.
      apply (Hchain (length l1) (length l1 + S (length l2))%nat); [lia| |].
      * by apply list_lookup_middle.
      * replace (l1 ++ a :: l2 ++ a :: l3) with ((l1 ++ a :: l2) ++ a :: l3)
          by (by rewrite <- app_assoc).
        apply list_lookup_middle. rewrite length_app. simpl. lia.
    + intros u v. destruct (decide (u = v)); [by left|by right].
Qed.
End cycles.

(** *** One scan *)

Lemma found_spec models model_list deps :
  found models model_list deps = true ↔
  ∀ d, d ∈ deps → d ∈ models → d ∈ model_list.
Proof.
  unfold found. rewrite forallb_forall. split.
  - intros H d Hd Hm. apply list_elem_of_In, H in Hd.
    apply orb_true_iff in Hd as [Hd|Hd].
    + apply bool_decide_eq_true in Hd. done.
    + by apply bool_decide_eq_true in Hd.
  - intros H d Hd. apply list_elem_of_In in Hd.
    destruct (decide (d ∈ models)) as [Hm|Hm].
    + apply orb_true_iff. right. apply bool_decide_eq_true. by apply H.
    + apply orb_true_iff. left. by apply bool_decide_eq_true.
Qed.

Lemma found_false models model_list deps :
  found models model_list deps = false →
  ∃ d, d ∈ deps ∧ d ∈ models ∧ d ∉ model_list.
Proof.
  unfold found. induction deps as [|d deps IH]; simpl; [done|].
  intros H. apply andb_false_iff in H as [H|H].
  - apply orb_false_iff in H as [H1 H2].
    apply bool_decide_eq_false in H1. apply bool_decide_eq_false in H2.
    exists d. split; [left|]. split; [|done].
    destruct (decide (d ∈ models)); [done|]. by destruct H1.
  - destruct (IH H) as (d' & ? & ? & ?). exists d'. split; [by right|done].
Qed.

Lemma scan_spec models pending :
  ∀ model_list skipped changed model_list' skipped' changed',
    scan models pending model_list skipped changed = (model_list', skipped', changed') →
    ∃ promoted kept,
      model_list' = model_list ++ promoted.*1 ∧
      skipped' = skipped ++ kept ∧
      pending ≡ₚ promoted ++ kept ∧
      changed' = changed || bool_decide (promoted ≠ []) ∧
      (promoted = [] → stuck models model_list pending) ∧
      (∀ k entry d, promoted !! k = Some entry → d ∈ entry.2 → d ∈ models →
         d ∈ model_list ++ (take k promoted).*1).
Proof.
  induction pending as [|[model deps] rest IH]; simpl;
    intros model_list skipped changed model_list' skipped' changed' Hscan.
  - injection Hscan as <- <- <-. exists [], []. simpl.
    rewrite !app_nil_r, orb_false_r. repeat split; try done. by constructor.
  - destruct (found models model_list deps) eqn:Hfound.
    + apply IH in Hscan as (promoted & kept & -> & -> & Hperm & -> & _ & Hord).
      exists ((model, deps) :: promoted), kept. simpl.
      rewrite <- app_assoc. repeat split; try done.
      * by rewrite Hperm.
      * by rewrite orb_true_r.
      * intros [|k] entry d Hk Hd Hm; simpl in *.
        -- injection Hk as <-. rewrite app_nil_r.
           by apply (proj1 (found_spec _ _ _) Hfound).
        -- specialize (Hord k entry d Hk Hd Hm).
           by rewrite <- app_assoc in Hord.
    + apply IH in Hscan as (promoted & kept & -> & -> & Hperm & -> & Hstuck & Hord).
      exists promoted, ((model, deps) :: kept).
      rewrite <- app_assoc. repeat split; try done.
      * rewrite Hperm. apply Permutation_middle.
      * intros Hnil. constructor; [done|by apply Hstuck].
Qed.

Lemma resolve_sound models work :
  (∀ m d1 d2, (m, d1) ∈ work → (m, d2) ∈ work → d1 = d2) →
  acyclic models work →
  ∀ fuel work_list model_list,
    length work_list ≤ fuel →
    (∀ entry, entry ∈ work_list → entry ∈ work) →
    NoDup (model_list ++ work_list.*1) →
    (∀ m, m ∈ models ↔ m ∈ model_list ∨ m ∈ work_list.*1) →
    dependencies_first models work model_list →
    ∃ result,
      resolve fuel models work_list model_list = Return result ∧
      NoDup result ∧ (∀ m, m ∈ result ↔ m ∈ models) ∧
      dependencies_first models work result.
Proof.
  intros Hfun Hacyc. induction fuel as [|fuel IH];
    intros work_list model_list Hlen Hsub Hnd Hmem Hfirst.
  - destruct work_list; [|simpl in Hlen; lia]. exists model_list. simpl in *.
    rewrite app_nil_r in Hnd. repeat split; try done.
    + intros Hm. apply Hmem. by left.
    + intros Hm. apply Hmem in Hm as [?|Hm]; [done|]. by apply elem_of_nil in Hm.
  - destruct work_list as [|entry0 work_list'].
    { exists model_list. simpl in *.
      rewrite app_nil_r in Hnd. repeat split; try done.
      + intros Hm. apply Hmem. by left.
      + intros Hm. apply Hmem in Hm as [?|Hm]; [done|]. by apply elem_of_nil in Hm. }
    set (work_list := entry0 :: work_list') in *.
    change (resolve (S fuel) models work_list model_list) with
      (match scan models (rev work_list) model_list [] false with
       | (model_list', skipped, true) => resolve fuel models skipped model_list'
       | (_, skipped, false) => RuntimeError (error_message skipped)
       end).
    destruct (scan models (rev work_list) model_list [] false)
      as [[model_list' skipped] changed] eqn:Hscan.
    apply scan_spec in Hscan
      as (promoted & kept & -> & -> & Hperm & -> & Hstuck & Hord).
    simpl. rewrite <- Permutation_rev in Hperm.
    destruct (decide (promoted = [])) as [->|Hpromoted].
    + exfalso. simpl. specialize (Hstuck eq_refl).
      destruct (closed_set_has_cycle (dependency_edge models work) work_list.*1)
        as [x Hx]; [done| |by apply (Hacyc x)].
      intros x Hx. apply list_elem_of_fmap in Hx as ([m deps] & -> & Hin).
      unfold stuck in Hstuck. rewrite Forall_forall in Hstuck.
      assert (Hin' : (m, deps) ∈ rev work_list) by (by rewrite <- Permutation_rev).
      apply Hstuck, found_false in Hin' as (d & Hd & Hdm & Hdn).
      exists d. split.
      * apply Hmem in Hdm as [?|?]; done.
      * exists deps. split; [by apply Hsub|done].
    + rewrite bool_decide_true by done. simpl orb. cbv iota.
      assert (Hperm1 : work_list.*1 ≡ₚ promoted.*1 ++ kept.*1)
        by (by rewrite Hperm, fmap_app).
      apply IH.
      * apply Permutation_length in Hperm. rewrite length_app in Hperm.
        destruct promoted; [done|]. simpl in Hperm, Hlen. lia.
      * intros entry He. apply Hsub. rewrite Hperm. apply elem_of_app. by right.
      * by rewrite <- app_assoc, <- Hperm1.
      * intros m. rewrite Hmem, Hperm1, !elem_of_app. tauto.
      * intros j model deps d Hj Hin Hd Hm.
        destruct (decide (j < length model_list)) as [Hlt|Hge].
        -- rewrite lookup_app_l in Hj by done.
           destruct (Hfirst j model deps d Hj Hin Hd Hm) as (i & Hi & Hl).
           exists i. split; [done|]. rewrite lookup_app_l by lia. done.
        -- rewrite lookup_app_r in Hj by lia.
           apply list_lookup_fmap_Some in Hj as ([m' deps'] & -> & Hk).
           simpl in *.
           assert (deps' = deps) as ->.
           { apply (Hfun m'); [|done]. apply Hsub. rewrite Hperm.
             apply elem_of_app. left. by eapply list_elem_of_lookup_2. }
           specialize (Hord _ _ d Hk Hd Hm).
           apply list_elem_of_lookup in Hord as [i Hi].
           exists i.
           assert (i < length (model_list ++ (take (j - length model_list) promoted).*1))
             by (by eapply lookup_lt_Some).
           rewrite length_app, length_fmap, length_take in H.
           split; [lia|].
           rewrite <- (take_drop (j - length model_list) promoted), fmap_app, app_assoc.
           rewrite lookup_app_l; [done|].
           rewrite length_app, length_fmap, length_take. lia.
Qed.

(** *** The outer loop *)

Lemma resolve_total models :
  ∀ fuel work_list model_list,
    length work_list ≤ fuel → resolve fuel models work_list model_list ≠ OutOfFuel.
Proof.
  induction fuel as [|fuel IH]; intros work_list model_list Hlen.
  - by destruct work_list; [|simpl in Hlen; lia].
  - destruct work_list as [|entry0 rest]; [done|].
    change (resolve (S fuel) models (entry0 :: rest) model_list) with
      (match scan models (rev (entry0 :: rest)) model_list [] false with
       | (model_list', skipped, true) => resolve fuel models skipped model_list'
       | (_, skipped, false) => RuntimeError (error_message skipped)
       end).
    destruct (scan models (rev (entry0 :: rest)) model_list [] false)
      as [[model_list' skipped] changed] eqn:Hscan.
    apply scan_spec in Hscan
      as (promoted & kept & -> & -> & Hperm & -> & _ & _).
    destruct promoted as [|p0 promoted]; [done|]. simpl. apply IH.
    rewrite <- Permutation_rev in Hperm. apply Permutation_length in Hperm.
    simpl in *. rewrite length_app in Hperm. lia.
Qed.

(** X1.  The loop of [sort_dependencies] ends: every scan that does not
    raise places a model, so as many scans as the work list has entries are
    always enough. *)
Lemma sort_dependencies_total apps : sort_dependencies apps ≠ OutOfFuel.
Proof. apply resolve_total. by rewrite length_rev. Qed.

Lemma work_list_functional (work : list (ModelId * list ModelId)) :
  NoDup work.*1 →
  ∀ m d1 d2, (m, d1) ∈ work → (m, d2) ∈ work → d1 = d2.
Proof.
  intros Hnd m d1 d2 H1 H2.
  apply list_elem_of_lookup in H1 as [i Hi], H2 as [j Hj].
  assert (i = j) as ->.
  { apply (proj1 (NoDup_alt _) Hnd i j m); rewrite list_lookup_fmap.
    - by rewrite Hi.
    - by rewrite Hj. }
  congruence.
Qed.

Lemma sort_work_list_sound models work :
  NoDup work.*1 → (∀ m, m ∈ models ↔ m ∈ work.*1) → acyclic models work →
  ∃ result,
    sort_work_list models work = Return result ∧
    NoDup result ∧ (∀ m, m ∈ result ↔ m ∈ models) ∧
    dependencies_first models work result.
Proof.
  intros Hnd Hmem Hacyc. unfold sort_work_list.
  apply resolve_sound; try done.
  - by apply work_list_functional.
  - by rewrite length_rev.
  - intros entry. by rewrite <- Permutation_rev.
  - simpl. by rewrite <- Permutation_rev.
  - intros m. rewrite Hmem, <- Permutation_rev, elem_of_nil. tauto.
Qed.

Lemma ranked_acyclic rank models work :
  ranked_by rank models work = true → acyclic models work.
Proof.
  intros Hrank.
  assert (Hedge : ∀ a b, dependency_edge models work a b → rank b < rank a).
  { intros a b (deps & Hin & Hb & Hm). unfold ranked_by in Hrank.
    rewrite forallb_forall in Hrank.
    apply list_elem_of_In, Hrank in Hin. simpl in Hin.
    rewrite forallb_forall in Hin. apply list_elem_of_In, Hin in Hb.
    apply orb_true_iff in Hb as [Hb|Hb].
    - by apply bool_decide_eq_true in Hb.
    - by apply Nat.ltb_lt in Hb. }
  assert (Htc : ∀ a b, tc (dependency_edge models work) a b → rank b < rank a).
  { induction 1 as [a b H|a b c H _ IH]; [by apply Hedge|].
    apply Hedge in H. lia. }
  intros x Hx. apply Htc in Hx. lia.
Qed.

(** Over the edges that the code derives: when no model reaches itself along
    them, [sort_dependencies] returns; the list it returns holds every model
    of the apps that are not excluded exactly once, and every dependency
    inside that set is placed at or before the model that declares it. *)
Theorem sort_dependencies_places_dependencies_first (apps : list AppConfig) :
  NoDup (ident <$> discovered apps) →
  acyclic (collect_models apps) (collect_dependencies apps) →
  ∃ model_list,
    sort_dependencies apps = Return model_list ∧
    NoDup model_list ∧
    (∀ m, m ∈ model_list ↔ ∃ model, model ∈ discovered apps ∧ ident model = m) ∧
    (∀ a b, considered_edge apps a b →
       ∃ i j, model_list !! i = Some b ∧ model_list !! j = Some a ∧ i ≤ j).
Proof.
  intros Hnd Hacyc.
  assert (Hfst : (collect_dependencies apps).*1 = ident <$> discovered apps).
  { unfold collect_dependencies. rewrite <- list_fmap_compose. done. }
  destruct (sort_work_list_sound (collect_models apps) (collect_dependencies apps))
    as (result & Hres & Hnd' & Hmem & Hfirst); try done.
  - by rewrite Hfst.
  - intros m. unfold collect_models. by rewrite elem_of_list_to_set, Hfst.
  - exists result. split; [done|]. split; [done|]. split.
    + intros m. rewrite Hmem. unfold collect_models.
      rewrite elem_of_list_to_set, list_elem_of_fmap.
      split; [intros (x & -> & Hx); by exists x|intros (x & Hx & <-); by exists x].
    + intros a b Hedge. pose proof Hedge as (deps & Hin & Hb & Hm).
      assert (Ha : a ∈ result).
      { apply Hmem. unfold collect_models. rewrite elem_of_list_to_set, <- Hfst.
        apply list_elem_of_fmap. by exists (a, deps). }
      apply list_elem_of_lookup in Ha as [j Hj].
      destruct (Hfirst j a deps b Hj Hin Hb Hm) as (i & Hij & Hi).
      exists i, j. split; [done|]. split; [done|lia].
Qed.

(** The same on [chain_apps]. *)
Lemma sort_dependencies_places_dependencies_first_witness :
  ∃ model_list,
    sort_dependencies chain_apps = Return model_list ∧
    NoDup model_list ∧
    (∀ m, m ∈ model_list ↔ ∃ model, model ∈ discovered chain_apps ∧ ident model = m) ∧
    (∀ a b, considered_edge chain_apps a b →
       ∃ i j, model_list !! i = Some b ∧ model_list !! j = Some a ∧ i ≤ j).
Proof.
  apply sort_dependencies_places_dependencies_first.
  - apply (bool_decide_unpack _). vm_compute. reflexivity.
  - apply (ranked_acyclic chain_rank). vm_compute. reflexivity.
Defined.

Example chain_sorted :
  sort_dependencies chain_apps =
  Return [in_app "A"; in_app "B"; in_app "C"; in_app "D"].
Proof. vm_compute. reflexivity. Qed.

(** *** The specified graph and the derived one *)

Lemma considered_discovered apps model :
  considered apps model ↔ model ∈ discovered apps.
Proof.
  unfold considered, discovered.
  rewrite list_elem_of_In, in_flat_map. split.
  - intros (app_config & Hin & Hex & Hm). exists app_config. split.
    + apply filter_In. split; [by apply list_elem_of_In|by apply bool_decide_eq_true].
    + by apply list_elem_of_In.
  - intros (app_config & Hin & Hm). apply filter_In in Hin as [Hin Hex].
    exists app_config. split; [by apply list_elem_of_In|].
    split; [by apply bool_decide_eq_true in Hex|by apply list_elem_of_In].
Qed.

Lemma considered_collect_models apps m :
  m ∈ collect_models apps ↔ ∃ model, considered apps model ∧ ident model = m.
Proof.
  unfold collect_models. rewrite elem_of_list_to_set, list_elem_of_fmap. split.
  - intros (model & -> & Hin). exists model. by rewrite considered_discovered.
  - intros (model & Hin & <-). exists model. by rewrite <- considered_discovered.
Qed.

Lemma elem_of_flat_map {A B} (f : A → list B) (l : list A) (b : B) :
  b ∈ flat_map f l ↔ ∃ a, a ∈ l ∧ b ∈ f a.
Proof.
  rewrite list_elem_of_In, in_flat_map. split; intros (a & Ha & Hb); exists a.
  - by rewrite !list_elem_of_In.
  - by rewrite <- !list_elem_of_In.
Qed.

Lemma elem_of_fk_dep (model rel_model : ModelId) (field : Field) :
  rel_model ∈ fk_dep model field ↔
  remote_model field = Some rel_model ∧ model ≠ rel_model ∧ ¬ suppressed model rel_model.
Proof.
  unfold fk_dep, suppressed. destruct (remote_model field) as [r|].
  2: { rewrite elem_of_nil. split; [done|]. by intros [? _]. }
  destruct (decide (r = model)) as [->|Hne].
  { rewrite bool_decide_false by (by intros []). rewrite elem_of_nil.
    split; [done|]. intros ([= ->] & ? & _). done. }
  rewrite bool_decide_true by done.
  destruct (bool_decide (model = Actor) && (bool_decide (r = Team) || bool_decide (r = User)))
    eqn:Hs.
  - rewrite elem_of_nil. split; [done|]. intros ([= ->] & _ & H). apply H.
    apply andb_true_iff in Hs as [Ha Hb]. apply bool_decide_eq_true in Ha.
    split; [done|]. apply orb_true_iff in Hb as [Hb|Hb];
      apply bool_decide_eq_true in Hb; tauto.
  - rewrite list_elem_of_singleton. split.
    + intros ->. split; [done|]. split; [done|]. intros [Ha Hb].
      apply andb_false_iff in Hs as [Hs|Hs].
      * by apply bool_decide_eq_false in Hs.
      * apply orb_false_iff in Hs as [H1 H2].
        apply bool_decide_eq_false in H1. apply bool_decide_eq_false in H2. tauto.
    + by intros ([= ->] & _).
Qed.

Lemma elem_of_m2m_dep (model rel_model : ModelId) (field : Field) :
  rel_model ∈ m2m_dep model field ↔
  remote_model field = Some rel_model ∧ model ≠ rel_model.
Proof.
  unfold m2m_dep. destruct (remote_model field) as [r|].
  2: { rewrite elem_of_nil. split; [done|]. by intros [? _]. }
  destruct (decide (r = model)) as [->|Hne].
  - rewrite bool_decide_false by (by intros []). rewrite elem_of_nil.
    split; [done|]. by intros ([= ->] & ?).
  - rewrite bool_decide_true by done. rewrite list_elem_of_singleton. split.
    + by intros ->.
    + by intros ([= ->] & _).
Qed.

(** Every specified edge is one of the edges the code works with. *)
Lemma specified_edge_considered apps a b :
  specified_edge apps a b → considered_edge apps a b.
Proof.
  intros (model & target & field & Hm & <- & Ht & <- & Hne & Hrel & Hfield).
  exists (model_deps model). split; [|split].
  - unfold collect_dependencies. apply list_elem_of_fmap. exists model.
    split; [done|]. by apply considered_discovered.
  - unfold model_deps. rewrite !elem_of_app. right.
    destruct Hfield as [[Hin Hsup]|[Hin Hcls]].
    + left. apply elem_of_flat_map. exists field. split; [done|].
      by apply elem_of_fk_dep.
    + right. apply elem_of_flat_map. exists field. split.
      * unfold many_to_many_fields. apply list_elem_of_In, filter_In.
        split; [by apply list_elem_of_In|].
        unfold isinstance_ManyToManyField. by rewrite Hcls.
      * by apply elem_of_m2m_dep.
  - apply considered_collect_models. by exists target.
Qed.

Lemma considered_edge_specified apps a b :
  NoDup (ident <$> discovered apps) →
  implicit_joins_only apps →
  considered_edge apps a b → specified_edge apps a b.
Proof.
  intros Hnd Himp (deps & Hin & Hb & Hmodels).
  unfold collect_dependencies in Hin.
  apply list_elem_of_fmap in Hin as (model & [= -> ->] & Hin).
  apply considered_discovered in Hin.
  apply considered_collect_models in Hmodels as (target & Ht & <-).
  destruct (Himp model Hin) as [Hnk Hm2m].
  unfold model_deps in Hb. rewrite Hnk in Hb. simpl in Hb.
  apply elem_of_app in Hb as [Hb|Hb]; apply elem_of_flat_map in Hb as (field & Hf & Hb).
  - apply elem_of_fk_dep in Hb as (Hrel & Hne & Hsup).
    exists model, target, field. repeat (split; [done|]). by left.
  - apply elem_of_m2m_dep in Hb as (Hrel & Hne).
    unfold many_to_many_fields in Hf. apply list_elem_of_In, filter_In in Hf as [Hf Hcls].
    apply list_elem_of_In in Hf.
    exists model, target, field. repeat (split; [done|]). right. split; [done|].
    by apply Hm2m.
Qed.

(** Where every join model is implicit the code meets the specified order. *)
Lemma sort_dependencies_meets_the_specified_order (apps : list AppConfig) :
  NoDup (ident <$> discovered apps) →
  implicit_joins_only apps →
  (∀ x, ¬ tc (specified_edge apps) x x) →
  ∃ model_list,
    sort_dependencies apps = Return model_list ∧ specified_order apps model_list.
Proof.
  intros Hnd Himp Hacyc.
  destruct (sort_dependencies_places_dependencies_first apps Hnd)
    as (model_list & Hres & Hnd' & Hmem & Hfirst).
  { intros x Hx. apply (Hacyc x).
    revert Hx. apply (tc_congruence (R := considered_edge apps) (fun m => m)).
    intros a b. by apply considered_edge_specified. }
  exists model_list. split; [done|]. split; [done|]. split.
  - intros m. rewrite Hmem. split; intros (model & H1 & H2); exists model;
      [by rewrite considered_discovered|by rewrite <- considered_discovered].
  - intros a b Hedge. by apply Hfirst, specified_edge_considered.
Qed.

Lemma membership_considered model :
  considered membership_apps model ↔ model = Group ∨ model = Member ∨ model = Membership.
Proof.
  unfold considered, membership_apps. split.
  - intros (app_config & Hin & _ & Hm).
    apply list_elem_of_singleton in Hin as ->. simpl in Hm.
    rewrite !elem_of_cons, elem_of_nil in Hm. tauto.
  - intros H. eexists. split; [apply list_elem_of_singleton; reflexivity|].
    split; [by vm_compute|]. simpl. rewrite !elem_of_cons. tauto.
Qed.

Lemma membership_edge_decreases a b :
  specified_edge membership_apps a b → membership_rank b < membership_rank a.
Proof.
  intros (model & target & field & Hm & <- & Ht & <- & Hne & Hrel & Hfield).
  apply membership_considered in Hm. apply membership_considered in Ht.
  destruct Hfield as [[Hin _]|[Hin Hcls]];
    destruct Hm as [->|[->| ->]]; simpl in Hin;
    repeat (apply elem_of_cons in Hin as [->|Hin]);
    try (by apply elem_of_nil in Hin);
    simpl in *; try done;
    injection Hrel as Hrel; rewrite <- Hrel; vm_compute; lia.
Qed.

(** C1, the code at the failing input.  Under the specified edges, which
    leave out the many-to-many field [members] because its join model is
    explicit, no model of [membership_apps] reaches itself and the order
    [Group, Member, Membership] meets the claim; [sort_dependencies] counts
    the edge [Group -> Member], finds the cycle with [Member -> Group] and
    raises. *)
Theorem explicit_through_edge_breaks_the_order :
  (∀ x, ¬ tc (specified_edge membership_apps) x x) ∧
  specified_order membership_apps [in_app "Group"; in_app "Member"; in_app "Membership"] ∧
  model_deps Group = [in_app "Member"] ∧
  sort_dependencies membership_apps =
    RuntimeError
      "Can't resolve dependencies for app.Group, app.Member, app.Membership in serialized app list.".
Proof.
  split; [|split; [|split]].
  - assert (Htc : ∀ a b, tc (specified_edge membership_apps) a b →
                         membership_rank b < membership_rank a).
    { induction 1 as [a b H|a b c H _ IH]; [by apply membership_edge_decreases|].
      apply membership_edge_decreases in H. lia. }
    intros x Hx. apply Htc in Hx. lia.
  - split; [|split].
    + apply (bool_decide_unpack _). vm_compute. reflexivity.
    + intros m. rewrite !elem_of_cons, elem_of_nil. split.
      * intros [->|[->|[->|[]]]];
          [exists Group|exists Member|exists Membership];
          (split; [apply membership_considered; tauto|reflexivity]).
      * intros (model & Hm & <-). apply membership_considered in Hm.
        destruct Hm as [->|[->| ->]]; tauto.
    + intros a b Hedge. pose proof (membership_edge_decreases a b Hedge) as Hlt.
      destruct Hedge as (model & target & _ & Hm & <- & Ht & <- & _).
      apply membership_considered in Hm. apply membership_considered in Ht.
      destruct Hm as [->|[->| ->]]; destruct Ht as [->|[->| ->]];
        vm_compute in Hlt; try lia.
      * exists 0, 1. split; [reflexivity|split; [reflexivity|lia]].
      * exists 0, 2. split; [reflexivity|split; [reflexivity|lia]].
      * exists 1, 2. split; [reflexivity|split; [reflexivity|lia]].
  - reflexivity.
  - vm_compute. reflexivity.
Qed.

(** *** Unresolvable work lists *)

Lemma scan_stuck models pending :
  ∀ model_list skipped changed,
    stuck models model_list pending →
    scan models pending model_list skipped changed =
      (model_list, skipped ++ pending, changed).
Proof.
  induction pending as [|[model deps] rest IH]; intros model_list skipped changed Hstuck.
  - by rewrite app_nil_r.
  - apply Forall_cons in Hstuck as [Hhd Htl]. simpl in *. rewrite Hhd.
    rewrite IH by done. by rewrite <- app_assoc.
Qed.

Lemma scan_unchanged models pending model_list skipped :
  (scan models pending model_list skipped false).2 = false ↔
  stuck models model_list pending.
Proof.
  split.
  - destruct (scan models pending model_list skipped false)
      as [[model_list' skipped'] changed'] eqn:Hscan. simpl. intros ->.
    apply scan_spec in Hscan as (promoted & kept & _ & _ & _ & Hch & Hstuck & _).
    apply Hstuck. destruct promoted; [done|]. by rewrite bool_decide_true in Hch.
  - intros Hstuck. by rewrite scan_stuck.
Qed.

Lemma insert_by_name_perm x l : insert_by_name x l ≡ₚ x :: l.
Proof.
  induction l as [|y l IH]; simpl; [done|].
  destruct (String.leb _ _); [done|]. rewrite IH. apply Permutation_swap.
Qed.

Lemma sorted_by_name_perm l : sorted_by_name l ≡ₚ l.
Proof.
  induction l as [|x l IH]; simpl; [done|]. by rewrite insert_by_name_perm, IH.
Qed.

Lemma entries_sorted_cons x l :
  entries_sorted (x :: l) ↔
  (∀ y, y ∈ l → String.leb (object_name x.1) (object_name y.1) = true) ∧
  entries_sorted l.
Proof.
  split.
  - intros H. split.
    + intros y Hy. apply list_elem_of_lookup in Hy as [j Hj].
      by apply (H 0 (S j) x y); [lia| |].
    + intros i j a b Hij Ha Hb. by apply (H (S i) (S j) a b); [lia| |].
  - intros [Hhd Htl] i [|j] a b Hij Ha Hb; [lia|]. simpl in Hb.
    destruct i as [|i]; simpl in Ha.
    + injection Ha as <-. apply Hhd. by eapply list_elem_of_lookup_2.
    + by apply (Htl i j a b); [lia| |].
Qed.

Lemma insert_by_name_sorted x l :
  entries_sorted l → entries_sorted (insert_by_name x l).
Proof.
  induction l as [|y l IH]; intros Hs; simpl.
  - apply entries_sorted_cons. split; [|done]. intros y Hy. by apply elem_of_nil in Hy.
  - destruct (String.leb (object_name x.1) (object_name y.1)) eqn:Hle.
    + apply entries_sorted_cons. split; [|done].
      intros z Hz. apply elem_of_cons in Hz as [->|Hz]; [done|].
      apply entries_sorted_cons in Hs as [Hhd _].
      eapply Text.string_leb_trans; [exact Hle|]. by apply Hhd.
    + apply entries_sorted_cons in Hs as [Hhd Htl].
      apply entries_sorted_cons. split; [|by apply IH].
      intros z Hz. rewrite insert_by_name_perm in Hz.
      apply elem_of_cons in Hz as [->|Hz]; [|by apply Hhd].
      destruct (String.leb_total (object_name x.1) (object_name y.1)); congruence.
Qed.

Lemma sorted_by_name_sorted l : entries_sorted (sorted_by_name l).
Proof.
  induction l as [|x l IH]; simpl; [|by apply insert_by_name_sorted].
  intros i j x y _ Hx. done.
Qed.

(** C3 (as amended).  When a full scan of a non-empty work list promotes
    nothing, the loop raises [RuntimeError]; the message lists the label
    [app_label.object_name] of every stuck model exactly once, ordered by
    class name, and nothing else: the dependency lists are left out. *)
Theorem stuck_scan_raises models fuel work_list model_list :
  work_list ≠ [] →
  (scan models (rev work_list) model_list [] false).2 = false →
  ∃ named message,
    resolve (S fuel) models work_list model_list = RuntimeError message ∧
    message = "Can't resolve dependencies for "
              +:+ Text.join ", " (model_label <$> named)
              +:+ " in serialized app list." ∧
    named ≡ₚ work_list.*1 ∧
    name_sorted named ∧
    ∀ entry, entry ∈ work_list → Text.contains (model_label entry.1) message = true.
Proof.
  intros Hne Hscan. apply scan_unchanged in Hscan.
  exists (sorted_by_name (rev work_list)).*1, (error_message (rev work_list)).
  split; [|split; [|split; [|split]]].
  - destruct work_list as [|entry0 rest]; [done|].
    change (resolve (S fuel) models (entry0 :: rest) model_list) with
      (match scan models (rev (entry0 :: rest)) model_list [] false with
       | (model_list', skipped, true) => resolve fuel models skipped model_list'
       | (_, skipped, false) => RuntimeError (error_message skipped)
       end).
    by rewrite scan_stuck.
  - unfold error_message. by rewrite <- list_fmap_compose.
  - by rewrite sorted_by_name_perm, <- Permutation_rev.
  - intros i j a b Hij Ha Hb.
    apply list_lookup_fmap_Some in Ha as (x & -> & Hx).
    apply list_lookup_fmap_Some in Hb as (y & -> & Hy).
    by apply (sorted_by_name_sorted (rev work_list) i j).
  - intros entry Hin. unfold error_message.
    destruct (Text.join_splits ", " (model_label entry.1)
                ((fun e => model_label e.1) <$> sorted_by_name (rev work_list)))
      as (before & rest & ->).
    + apply list_elem_of_fmap. exists entry. split; [done|].
      by rewrite sorted_by_name_perm, <- Permutation_rev.
    + rewrite !Text.append_assoc, <- (Text.append_assoc _ before).
      apply Text.contains_append.
Qed.

(** The theorem on the first scan of the cyclic registry. *)
Lemma stuck_scan_raises_witness :
  ∃ named message,
    resolve 1 (collect_models (cycle_apps "Y"))
      (rev (collect_dependencies (cycle_apps "Y"))) [] = RuntimeError message ∧
    message = "Can't resolve dependencies for "
              +:+ Text.join ", " (model_label <$> named)
              +:+ " in serialized app list." ∧
    named ≡ₚ (rev (collect_dependencies (cycle_apps "Y"))).*1 ∧
    name_sorted named ∧
    ∀ entry, entry ∈ rev (collect_dependencies (cycle_apps "Y")) →
      Text.contains (model_label entry.1) message = true.
Proof.
  apply stuck_scan_raises; [done|]. vm_compute. reflexivity.
Defined.

(** C3, the claim as stated fails: the message is the same whether [D] is
    held back by [Y] or by [Z], so it does not tell the unmet dependencies. *)
Lemma error_message_omits_unmet_dependencies :
  sort_dependencies (cycle_apps "Y") =
    RuntimeError "Can't resolve dependencies for app.D, app.Y, app.Z in serialized app list." ∧
  sort_dependencies (cycle_apps "Z") =
    RuntimeError "Can't resolve dependencies for app.D, app.Y, app.Z in serialized app list." ∧
  unmet (collect_models (cycle_apps "Y")) []
    (model_deps (plain "app" "D" [in_app "Y"])) = [in_app "Y"] ∧
  unmet (collect_models (cycle_apps "Z")) []
    (model_deps (plain "app" "D" [in_app "Z"])) = [in_app "Z"].
Proof. repeat split; vm_compute; reflexivity. Qed.

(** *** Edge derivation *)

Lemma self_reference_adds_nothing (model : ModelId) (field : Field) :
  remote_model field = Some model →
  fk_dep model field = [] ∧ m2m_dep model field = [].
Proof.
  intros H. unfold fk_dep, m2m_dep. rewrite H.
  by rewrite bool_decide_false by (by intros []).
Qed.

Lemma m2m_dep_ignores_through (model : ModelId) name target auto_created :
  m2m_dep model {| field_name := name; field_class := ManyToManyField auto_created;
                   remote_model := target |} =
  m2m_dep model {| field_name := name; field_class := ManyToManyField true;
                   remote_model := target |}.
Proof. reflexivity. Qed.

(** C4, the code at the failing input: the many-to-many field [teams] goes
    through an explicit join model and still adds [Team] to the dependencies
    of [Project]. *)
Theorem explicit_through_m2m_adds_dependency :
  many_to_many_fields Project = meta_get_fields Project ∧
  model_deps Project = [Team].
Proof. split; reflexivity. Qed.

(** *** Further properties of the resolver *)

(** What [resolve] guarantees whenever it returns, cycles or not. *)
Lemma resolve_returns_ordered models work :
  (∀ m d1 d2, (m, d1) ∈ work → (m, d2) ∈ work → d1 = d2) →
  ∀ fuel work_list model_list result,
    (∀ entry, entry ∈ work_list → entry ∈ work) →
    NoDup (model_list ++ work_list.*1) →
    (∀ m, m ∈ models ↔ m ∈ model_list ∨ m ∈ work_list.*1) →
    dependencies_first models work model_list →
    resolve fuel models work_list model_list = Return result →
    NoDup result ∧ (∀ m, m ∈ result ↔ m ∈ models) ∧
    dependencies_first models work result.
Proof.
  intros Hfun. induction fuel as [|fuel IH];
    intros work_list model_list result Hsub Hnd Hmem Hfirst Hres.
  - destruct work_list; [|done]. injection Hres as <-. simpl in *.
    rewrite app_nil_r in Hnd. repeat split; try done.
    + intros Hm. apply Hmem. by left.
    + intros Hm. apply Hmem in Hm as [?|Hm]; [done|]. by apply elem_of_nil in Hm.
  - destruct work_list as [|entry0 work_list'].
    { injection Hres as <-. simpl in *.
      rewrite app_nil_r in Hnd. repeat split; try done.
      + intros Hm. apply Hmem. by left.
      + intros Hm. apply Hmem in Hm as [?|Hm]; [done|]. by apply elem_of_nil in Hm. }
    set (work_list := entry0 :: work_list') in *.
    change (resolve (S fuel) models work_list model_list) with
      (match scan models (rev work_list) model_list [] false with
       | (model_list', skipped, true) => resolve fuel models skipped model_list'
       | (_, skipped, false) => RuntimeError (error_message skipped)
       end) in Hres.
    destruct (scan models (rev work_list) model_list [] false)
      as [[model_list' skipped] changed] eqn:Hscan.
    apply scan_spec in Hscan
      as (promoted & kept & -> & -> & Hperm & -> & Hstuck & Hord).
    simpl in Hres. rewrite <- Permutation_rev in Hperm.
    destruct (decide (promoted = [])) as [->|Hpromoted]; [done|].
    rewrite bool_decide_true in Hres by done.
    assert (Hperm1 : work_list.*1 ≡ₚ promoted.*1 ++ kept.*1)
      by (by rewrite Hperm, fmap_app).
    apply IH in Hres; [done| | | |].
    + intros entry He. apply Hsub. rewrite Hperm. apply elem_of_app. by right.
    + by rewrite <- app_assoc, <- Hperm1.
    + intros m. rewrite Hmem, Hperm1, !elem_of_app. tauto.
    + intros j model deps d Hj Hin Hd Hm.
      destruct (decide (j < length model_list)) as [Hlt|Hge].
      * rewrite lookup_app_l in Hj by done.
        destruct (Hfirst j model deps d Hj Hin Hd Hm) as (i & Hi & Hl).
        exists i. split; [done|]. rewrite lookup_app_l by lia. done.
      * rewrite lookup_app_r in Hj by lia.
        apply list_lookup_fmap_Some in Hj as ([m' deps'] & -> & Hk).
        simpl in *.
        assert (deps' = deps) as ->.
        { apply (Hfun m'); [|done]. apply Hsub. rewrite Hperm.
          apply elem_of_app. left. by eapply list_elem_of_lookup_2. }
        specialize (Hord _ _ d Hk Hd Hm).
        apply list_elem_of_lookup in Hord as [i Hi].
        exists i.
        assert (i < length (model_list ++ (take (j - length model_list) promoted).*1))
          by (by eapply lookup_lt_Some).
        rewrite length_app, length_fmap, length_take in H.
        split; [lia|].
        rewrite <- (take_drop (j - length model_list) promoted), fmap_app, app_assoc.
        rewrite lookup_app_l; [done|].
        rewrite length_app, length_fmap, length_take. lia.
Qed.

Lemma ordered_list_has_no_cycle models work result :
  NoDup result → (∀ m, m ∈ result ↔ m ∈ models) →
  (∀ m, m ∈ work.*1 → m ∈ models) →
  dependencies_first models work result → acyclic models work.
Proof.
  intros Hnd Hmem Hwork Hfirst.
  assert (Hstep : ∀ a b, tc (dependency_edge models work) a b →
            ∀ j, result !! j = Some a → ∃ i, i < j ∧ result !! i = Some b).
  { induction 1 as [a b (deps & Hin & Hb & Hm)|a b c (deps & Hin & Hb & Hm) _ IH];
      intros j Hj.
    - by eapply Hfirst.
    - destruct (Hfirst j a deps b Hj Hin Hb Hm) as (i & Hij & Hi).
      destruct (IH i Hi) as (k & Hki & Hk). exists k. split; [lia|done]. }
  intros x Hx.
  assert (Hxm : x ∈ result).
  { apply Hmem.
    assert (∃ y, dependency_edge models work x y) as (y & deps & Hin & _)
      by (inversion Hx; eauto).
    apply Hwork. apply list_elem_of_fmap. by exists (x, deps). }
  apply list_elem_of_lookup in Hxm as [j Hj].
  destruct (Hstep x x Hx j Hj) as (i & Hij & Hi).
  assert (i = j) by (by eapply NoDup_lookup). lia.
Qed.

(** X2.  On a registry of distinct models [sort_dependencies] returns a
    list exactly when no model reaches itself along the considered
    dependency edges, and raises [RuntimeError] exactly when one does; the
    list it returns holds each considered model once. *)
Theorem sort_dependencies_returns_iff_acyclic (apps : list AppConfig) :
  NoDup (ident <$> discovered apps) →
  match sort_dependencies apps with
  | Return model_list =>
      acyclic (collect_models apps) (collect_dependencies apps) ∧
      NoDup model_list ∧ (∀ m, m ∈ model_list ↔ m ∈ collect_models apps)
  | RuntimeError _ => ¬ acyclic (collect_models apps) (collect_dependencies apps)
  | OutOfFuel => False
  end.
Proof.
  intros Hnd.
  assert (Hfst : (collect_dependencies apps).*1 = ident <$> discovered apps).
  { unfold collect_dependencies. by rewrite <- list_fmap_compose. }
  assert (Hmodels : ∀ m, m ∈ collect_models apps ↔ m ∈ (collect_dependencies apps).*1).
  { intros m. unfold collect_models. by rewrite elem_of_list_to_set, Hfst. }
  destruct (sort_dependencies apps) as [model_list|message|] eqn:Hsort.
  - unfold sort_dependencies, sort_work_list in Hsort.
    apply (resolve_returns_ordered _ (collect_dependencies apps)) in Hsort
      as (Hnd' & Hmem & Hfirst).
    + split; [|done].
      eapply ordered_list_has_no_cycle; [done|done| |done].
      intros m. by rewrite Hmodels.
    + apply work_list_functional. by rewrite Hfst.
    + intros entry. by rewrite <- Permutation_rev.
    + simpl. by rewrite <- Permutation_rev, Hfst.
    + intros m. rewrite Hmodels, <- Permutation_rev, elem_of_nil. tauto.
    + intros j model deps d Hj. done.
  - intros Hacyc.
    destruct (sort_work_list_sound (collect_models apps) (collect_dependencies apps))
      as (result & Hres & _); [by rewrite Hfst|done|done|].
    unfold sort_dependencies in Hsort. congruence.
  - by apply sort_dependencies_total in Hsort.
Qed.

(** The theorem on the cyclic registry: running the resolver shows the
    cycle. *)
Lemma sort_dependencies_returns_iff_acyclic_witness :
  ¬ acyclic (collect_models (cycle_apps "Y")) (collect_dependencies (cycle_apps "Y")).
Proof.
  assert (Hnd : NoDup (ident <$> discovered (cycle_apps "Y")))
    by (apply (bool_decide_unpack _); vm_compute; reflexivity).
  pose proof (sort_dependencies_returns_iff_acyclic (cycle_apps "Y") Hnd) as H.
  assert (Hrun : sort_dependencies (cycle_apps "Y") = RuntimeError
            "Can't resolve dependencies for app.D, app.Y, app.Z in serialized app list.")
    by (vm_compute; reflexivity).
  rewrite Hrun in H. exact H.
Defined.

Lemma scan_all_ready models pending :
  ∀ model_list skipped changed,
    (∀ k entry d, pending !! k = Some entry → d ∈ entry.2 → d ∈ models →
       d ∈ model_list ++ (take k pending).*1) →
    scan models pending model_list skipped changed =
      (model_list ++ pending.*1, skipped, changed || bool_decide (pending ≠ [])).
Proof.
  induction pending as [|[model deps] rest IH]; intros model_list skipped changed Hready.
  - simpl. by rewrite app_nil_r, orb_false_r.
  - simpl. rewrite (proj2 (found_spec models model_list deps)).
    + rewrite IH.
      * rewrite <- app_assoc. simpl. by rewrite orb_true_r.
      * intros k entry d Hk Hd Hm. rewrite <- app_assoc.
        by apply (Hready (S k) entry d).
    + intros d Hd Hm. specialize (Hready 0 (model, deps) d eq_refl Hd Hm).
      simpl in Hready. by rewrite app_nil_r in Hready.
Qed.

(** X3.  When the discovery order already lists every considered dependency
    before the model that declares it, [sort_dependencies] returns the models
    in discovery order. *)
Theorem ordered_discovery_is_kept (apps : list AppConfig) :
  already_ordered (collect_models apps) (collect_dependencies apps) →
  sort_dependencies apps = Return (ident <$> discovered apps).
Proof.
  intros Hord. unfold sort_dependencies, sort_work_list.
  assert (Hfst : (collect_dependencies apps).*1 = ident <$> discovered apps).
  { unfold collect_dependencies. by rewrite <- list_fmap_compose. }
  rewrite <- Hfst. set (work := collect_dependencies apps) in *.
  destruct work as [|entry0 work'] eqn:Hwork; [done|].
  rewrite <- Hwork in *. assert (Hlen : length work = S (length work')) by (by rewrite Hwork).
  rewrite Hlen.
  destruct (rev work) as [|r0 rest] eqn:Hrev.
  { apply (f_equal (@length _)) in Hrev. rewrite length_rev in Hrev. simpl in *. lia. }
  change (resolve (S (length work')) (collect_models apps) (r0 :: rest) [])
    with (match scan (collect_models apps) (rev (r0 :: rest)) [] [] false with
          | (model_list', skipped, true) =>
              resolve (length work') (collect_models apps) skipped model_list'
          | (_, skipped, false) => RuntimeError (error_message skipped)
          end).
  rewrite <- Hrev, rev_involutive, scan_all_ready by done.
  rewrite bool_decide_true by (by rewrite Hwork). simpl.
  by destruct (length work').
Qed.

(** The theorem on [ordered_apps]. *)
Lemma ordered_discovery_is_kept_witness :
  sort_dependencies ordered_apps = Return [in_app "A"; in_app "B"; in_app "C"].
Proof.
  apply (ordered_discovery_is_kept ordered_apps).
  intros [|[|[|k]]] entry d Hk Hd Hm; vm_compute in Hk; try done;
    injection Hk as <-; apply (bool_decide_unpack _);
    vm_compute in Hd; repeat (apply elem_of_cons in Hd as [->|Hd]; [by vm_compute|]);
    by apply elem_of_nil in Hd.
Defined.

Lemma found_considered_only models model_list deps :
  found models model_list (List.filter (fun d => bool_decide (d ∈ models)) deps)
  = found models model_list deps.
Proof.
  unfold found. induction deps as [|d deps IH]; [done|]. simpl.
  destruct (decide (d ∈ models)) as [Hd|Hd].
  - rewrite (bool_decide_true (d ∈ models)) by done. simpl. by rewrite IH.
  - rewrite (bool_decide_false (d ∈ models)) by done.
    rewrite (bool_decide_true (d ∉ models)) by done. simpl. by rewrite IH.
Qed.

Lemma scan_considered_only models pending :
  ∀ model_list skipped changed,
    scan models (considered_only models pending) model_list
      (considered_only models skipped) changed
    = let '(model_list', skipped', changed') :=
        scan models pending model_list skipped changed in
      (model_list', considered_only models skipped', changed').
Proof.
  induction pending as [|[model deps] rest IH]; intros model_list skipped changed;
    [done|].
  simpl. rewrite found_considered_only.
  destruct (found models model_list deps); [apply IH|].
  rewrite <- (IH model_list (skipped ++ [(model, deps)]) changed).
  unfold considered_only. by rewrite fmap_app.
Qed.

Lemma insert_by_name_fmap (f : ModelId * list ModelId → ModelId * list ModelId) x l :
  (∀ e, (f e).1 = e.1) →
  insert_by_name (f x) (f <$> l) = f <$> insert_by_name x l.
Proof.
  intros Hf. induction l as [|y l IH]; [done|].
  rewrite fmap_cons. cbn [insert_by_name]. rewrite !Hf.
  destruct (String.leb _ _); [done|]. by rewrite IH, fmap_cons.
Qed.

Lemma error_message_considered_only models skipped :
  error_message (considered_only models skipped) = error_message skipped.
Proof.
  unfold error_message. do 2 f_equal.
  assert (Hsorted : sorted_by_name (considered_only models skipped)
                    = considered_only models (sorted_by_name skipped)).
  { induction skipped as [|x l IH]; [done|]. simpl. rewrite IH.
    by apply (insert_by_name_fmap
                (fun entry => (entry.1,
                   List.filter (fun d => bool_decide (d ∈ models)) entry.2))
                x (sorted_by_name l)). }
  rewrite Hsorted. unfold considered_only. by rewrite <- list_fmap_compose.
Qed.

Lemma rev_considered_only models work :
  rev (considered_only models work) = considered_only models (rev work).
Proof.
  unfold considered_only. induction work as [|x l IH]; [done|].
  rewrite fmap_cons. simpl. by rewrite IH, fmap_app.
Qed.

Lemma resolve_considered_only models :
  ∀ fuel work_list model_list,
    resolve fuel models (considered_only models work_list) model_list
    = resolve fuel models work_list model_list.
Proof.
  induction fuel as [|fuel IH]; intros [|entry0 rest] model_list; try done.
  change (resolve (S fuel) models (entry0 :: rest) model_list) with
    (match scan models (rev (entry0 :: rest)) model_list [] false with
     | (model_list', skipped, true) => resolve fuel models skipped model_list'
     | (_, skipped, false) => RuntimeError (error_message skipped)
     end).
  change (resolve (S fuel) models (considered_only models (entry0 :: rest)) model_list)
    with
    (match scan models (rev (considered_only models (entry0 :: rest))) model_list
             (considered_only models []) false with
     | (model_list', skipped, true) => resolve fuel models skipped model_list'
     | (_, skipped, false) => RuntimeError (error_message skipped)
     end).
  rewrite rev_considered_only, scan_considered_only.
  destruct (scan models (rev (entry0 :: rest)) model_list [] false)
    as [[model_list' skipped] [|]].
  - apply IH.
  - by rewrite error_message_considered_only.
Qed.

(** X4.  Dependencies on models outside the considered set have no effect:
    dropping them from every entry of the work list leaves the result, list
    or error message, the same. *)
Theorem outside_dependencies_do_not_matter (models : gset ModelId)
    (work : list (ModelId * list ModelId)) :
  sort_work_list models (considered_only models work) = sort_work_list models work.
Proof.
  unfold sort_work_list.
  rewrite rev_considered_only. unfold considered_only at 1. rewrite length_fmap. apply resolve_considered_only.
Qed.

End Resolver.

(** ** The datetime-safe JSON encoder *)

Module Encoder.

Local Open Scope Z_scope.

(** A [datetime.datetime] value.  [utcoffset] is [obj.utcoffset()] in
    microseconds: [None] for a naive value, which has no [tzinfo]. *)
Record datetime := {
  year : Z; month : Z; day : Z;
  hour : Z; minute : Z; second : Z; microsecond : Z;
  utcoffset : option Z;
}.

(** The calendar helpers of Python's [datetime] module, on which
    [astimezone] rests: proleptic Gregorian ordinals, day 1 being
    0001-01-01. *)
Definition _is_leap (y : Z) : bool :=
  (y mod 4 =? 0) && (negb (y mod 100 =? 0) || (y mod 400 =? 0)).

Definition _days_before_year (y : Z) : Z :=
  let y := y - 1 in y * 365 + y / 4 - y / 100 + y / 400.

Definition _DAYS_IN_MONTH : list Z :=
  [-1; 31; 28; 31; 30; 31; 30; 31; 31; 30; 31; 30; 31].

Definition _DAYS_BEFORE_MONTH : list Z :=
  [-1; 0; 31; 59; 90; 120; 151; 181; 212; 243; 273; 304; 334].

Definition _days_in_month (y m : Z) : Z :=
  if (m =? 2) && _is_leap y then 29 else nth (Z.to_nat m) _DAYS_IN_MONTH 0.

Definition _days_before_month (y m : Z) : Z :=
  nth (Z.to_nat m) _DAYS_BEFORE_MONTH 0 + (if (2 <? m) && _is_leap y then 1 else 0).

Definition _ymd2ord (y m d : Z) : Z :=
  _days_before_year y + _days_before_month y m + d.

Definition _DI400Y : Z := 146097.
Definition _DI100Y : Z := 36524.
Definition _DI4Y : Z := 1461.
Definition _MAXORDINAL : Z := 3652059.

(** The end of [_ord2ymd]: month and day from the day [n] of the year,
    counted from 0. *)
Definition month_and_day (n : Z) (leapyear : bool) : Z * Z :=
  let m := (n + 50) / 32 in
  let preceding :=
    nth (Z.to_nat m) _DAYS_BEFORE_MONTH 0 + (if (2 <? m) && leapyear then 1 else 0) in
  if n <? preceding then
    let m := m - 1 in
    let preceding :=
      preceding - (nth (Z.to_nat m) _DAYS_IN_MONTH 0
                   + (if (m =? 2) && leapyear then 1 else 0)) in
    (m, n - preceding + 1)
  else (m, n - preceding + 1).

Definition _ord2ymd (n : Z) : Z * Z * Z :=
  let n := n - 1 in
  let n400 := n / _DI400Y in
  let n := n mod _DI400Y in
  let n100 := n / _DI100Y in
  let n := n mod _DI100Y in
  let n4 := n / _DI4Y in
  let n := n mod _DI4Y in
  let n1 := n / 365 in
  let n := n mod 365 in
  let y := n400 * 400 + 1 + n100 * 100 + n4 * 4 + n1 in
  if (n1 =? 4) || (n100 =? 4) then (y - 1, 12, 31)
  else
    let leapyear := (n1 =? 3) && (negb (n4 =? 24) || (n100 =? 3)) in
    let '(m, dd) := month_and_day n leapyear in (y, m, dd).

(** The constructor's range checks. *)
Definition valid (d : datetime) : bool :=
  (1 <=? year d) && (year d <=? 9999) &&
  (1 <=? month d) && (month d <=? 12) &&
  (1 <=? day d) && (day d <=? _days_in_month (year d) (month d)) &&
  (0 <=? hour d) && (hour d <? 24) &&
  (0 <=? minute d) && (minute d <? 60) &&
  (0 <=? second d) && (second d <? 60) &&
  (0 <=? microsecond d) && (microsecond d <? 1000000).

Definition US_PER_DAY : Z := 86400000000.

(** Microseconds from the start of ordinal day 0 to the instant that the
    fields of [d] name at the offset [offset]. *)
Definition utc_microseconds (d : datetime) (offset : Z) : Z :=
  (_ymd2ord (year d) (month d) (day d) * 86400
   + hour d * 3600 + minute d * 60 + second d) * 1000000
  + microsecond d - offset.

(** [self - offset] with the zone replaced by UTC, the middle of
    [astimezone]; [None] stands for its [OverflowError]. *)
Definition minus_offset (d : datetime) (offset : Z) : option datetime :=
  let total := utc_microseconds d offset in
  let days := total / US_PER_DAY in
  let seconds := (total mod US_PER_DAY) / 1000000 in
  if (0 <? days) && (days <=? _MAXORDINAL) then
    let '(y, m, dd) := _ord2ymd days in
    Some {| year := y; month := m; day := dd;
            hour := seconds / 3600;
            minute := (seconds mod 3600) / 60;
            second := seconds mod 60;
            microsecond := total mod 1000000;
            utcoffset := Some 0 |}
  else None.

Definition digit (n : Z) : ascii := ascii_of_nat (48 + Z.to_nat (n mod 10)).

(** [width] decimal digits of [n], the lowest last: [%0<width>d] for
    [0 <= n < 10 ^ width]. *)
Fixpoint zero_padded (width : nat) (n : Z) : string :=
  match width with
  | O => ""
  | S w => zero_padded w (n / 10) +:+ String (digit n) ""
  end.

(** [%Y] for a year of 1..9999 as CPython before 3.13 has it from glibc's
    [strftime]: the decimal year without padding.  (Later versions, and
    other C libraries, pad to four digits; the two agree from year 1000
    on.) *)
Definition year_text (y : Z) : string :=
  if y <? 10 then zero_padded 1 y
  else if y <? 100 then zero_padded 2 y
  else if y <? 1000 then zero_padded 3 y
  else zero_padded 4 y.

(** [obj.strftime("%Y-%m-%dT%H:%M:%S.%f")] *)
Definition strftime (d : datetime) : string :=
  year_text (year d) +:+ "-" +:+ zero_padded 2 (month d) +:+ "-"
  +:+ zero_padded 2 (day d) +:+ "T" +:+ zero_padded 2 (hour d) +:+ ":"
  +:+ zero_padded 2 (minute d) +:+ ":" +:+ zero_padded 2 (second d) +:+ "."
  +:+ zero_padded 6 (microsecond d).

(** [s[:-n]] *)
Definition drop_last (n : nat) (s : string) : string :=
  String.substring 0 (String.length s - n) s.

Inductive raised := OverflowError | ValueError | TypeError.

(** What the encoder is handed: a datetime, or something else that goes to
    the parent class. *)
Inductive pyobject (other : Type) :=
| PyDatetime (d : datetime)
| PyOther (o : other).
Arguments PyDatetime {other} d.
Arguments PyOther {other} o.

Section encoder.
Context {other : Type}.
(** The offset of the system local zone at a naive value, as [astimezone]
    looks it up through the platform's time functions; the lookup raises
    where those do not reach, as it does for the first days of year 1. *)
Variable local_utcoffset : datetime → raised + Z.
(** [DjangoJSONEncoder.default] *)
Variable DjangoJSONEncoder_default : other → raised + string.

(** The offset [astimezone] subtracts: the value's own, or for a naive
    value that of the local zone. *)
Definition offset_from_utc (d : datetime) : raised + Z :=
  match utcoffset d with
  | Some offset => inr offset
  | None => local_utcoffset d
  end.

(** [obj.astimezone(UTC_0)] *)
Definition astimezone_UTC_0 (d : datetime) : raised + datetime :=
  match offset_from_utc d with
  | inl e => inl e
  | inr offset =>
      match minus_offset d offset with
      | Some utc => inr utc
      | None => inl OverflowError
      end
  end.

Definition DatetimeSafeDjangoJSONEncoder_default (obj : pyobject other) :
    raised + string :=
  match obj with
  | PyDatetime d =>
      match astimezone_UTC_0 d with
      | inr utc => inr (drop_last 3 (strftime utc) +:+ "Z")
      | inl e => inl e
      end
  | PyOther o => DjangoJSONEncoder_default o
  end.
End encoder.


Definition is_digit (c : ascii) : bool :=
  let n := nat_of_ascii c in (48 <=? n)%nat && (n <=? 57)%nat.



(** An aware datetime at the offset [offset]. *)
Definition at_offset (offset y m d hh mm ss us : Z) : datetime :=
  {| year := y; month := m; day := d; hour := hh; minute := mm; second := ss;
     microsecond := us; utcoffset := Some offset |}.

Definition at_utc : Z → Z → Z → Z → Z → Z → Z → datetime := at_offset 0.

(** The encoder on an aware datetime: the local zone is not consulted and
    nothing is handed to the parent class. *)
Definition encode (d : datetime) : raised + string :=
  DatetimeSafeDjangoJSONEncoder_default (other := Empty_set)
    (fun naive => inl ValueError) (fun o => inl TypeError) (PyDatetime d).

(** The fields of [d] down to the millisecond, then [Z]:
    [YYYY-MM-DDTHH:MM:SS.mmmZ] from year 1000 on. *)
Definition millisecond_rendering (d : datetime) : string :=
  year_text (year d) +:+ "-" +:+ zero_padded 2 (month d) +:+ "-"
  +:+ zero_padded 2 (day d) +:+ "T" +:+ zero_padded 2 (hour d) +:+ ":"
  +:+ zero_padded 2 (minute d) +:+ ":" +:+ zero_padded 2 (second d) +:+ "."
  +:+ zero_padded 3 (microsecond d / 1000) +:+ "Z".



Definition fields_fit (d : datetime) : Prop :=
  1 <= year d <= 9999 ∧ 1 <= month d <= 12 ∧ 1 <= day d <= 31 ∧
  0 <= hour d <= 23 ∧ 0 <= minute d <= 59 ∧ 0 <= second d <= 59 ∧
  0 <= microsecond d <= 999999.

Definition month_and_day_ok (leapyear : bool) (k : nat) : bool :=
  let '(m, dd) := month_and_day (Z.of_nat k) leapyear in
  (1 <=? m) && (m <=? 12) && (1 <=? dd) && (dd <=? 31).

(** The date [y]-[m]-[d], when it exists, has an ordinal of the first 400
    years and comes back from it. *)
Definition round_trips (y m d : Z) : bool :=
  negb (d <=? _days_in_month y m)
  || (let n := _ymd2ord y m d in
      (1 <=? n) && (n <=? _DI400Y)
      && (let '(y', m', d') := _ord2ymd n in (y' =? y) && (m' =? m) && (d' =? d))).

Lemma month_and_day_range n leapyear :
  0 <= n < 365 →
  1 <= (month_and_day n leapyear).1 <= 12 ∧ 1 <= (month_and_day n leapyear).2 <= 31.
Proof.
  intros Hn.
  assert (Hall : ∀ b, forallb (month_and_day_ok b) (seq 0 365) = true).
  { intros []; vm_compute; reflexivity. }
  specialize (Hall leapyear). rewrite forallb_forall in Hall.
  specialize (Hall (Z.to_nat n)). unfold month_and_day_ok in Hall.
  rewrite Z2Nat.id in Hall by lia.
  destruct (month_and_day n leapyear) as [m dd]. simpl.
  assert (Hin : In (Z.to_nat n) (seq 0 365)) by (apply in_seq; lia).
  apply Hall in Hin. lia.
Qed.

Lemma _ord2ymd_range n :
  1 <= n <= _MAXORDINAL →
  1 <= (_ord2ymd n).1.1 <= 9999 ∧ 1 <= (_ord2ymd n).1.2 <= 12 ∧
  1 <= (_ord2ymd n).2 <= 31.
Proof.
  unfold _MAXORDINAL, _ord2ymd, _DI400Y, _DI100Y, _DI4Y. intros Hn. cbv zeta.
  pose proof (Z.div_mod (n - 1) 146097 ltac:(lia)) as E1.
  pose proof (Z.mod_pos_bound (n - 1) 146097 ltac:(lia)) as B1.
  set (a := (n - 1) / 146097) in *. set (r1 := (n - 1) mod 146097) in *.
  pose proof (Z.div_mod r1 36524 ltac:(lia)) as E2.
  pose proof (Z.mod_pos_bound r1 36524 ltac:(lia)) as B2.
  set (b := r1 / 36524) in *. set (r2 := r1 mod 36524) in *.
  pose proof (Z.div_mod r2 1461 ltac:(lia)) as E3.
  pose proof (Z.mod_pos_bound r2 1461 ltac:(lia)) as B3.
  set (c := r2 / 1461) in *. set (r3 := r2 mod 1461) in *.
  pose proof (Z.div_mod r3 365 ltac:(lia)) as E4.
  pose proof (Z.mod_pos_bound r3 365 ltac:(lia)) as B4.
  set (e := r3 / 365) in *. set (r4 := r3 mod 365) in *.
  destruct ((e =? 4) || (b =? 4)) eqn:Hend.
  - simpl. lia.
  - pose proof (month_and_day_range r4
      ((e =? 3) && (negb (c =? 24) || (b =? 3))) B4) as Hmd.
    destruct (month_and_day r4 _) as [m dd]. simpl in *. lia.
Qed.


Lemma minus_offset_fields_fit d offset utc :
  minus_offset d offset = Some utc → fields_fit utc.
Proof.
  unfold minus_offset, US_PER_DAY. cbv zeta.
  set (total := utc_microseconds d offset).
  destruct ((0 <? total / 86400000000) && (total / 86400000000 <=? _MAXORDINAL))
    eqn:Hdays; [|done].
  pose proof (_ord2ymd_range (total / 86400000000) ltac:(lia)) as Hymd.
  destruct (_ord2ymd (total / 86400000000)) as [[y m] dd].
  intros [= <-]. unfold fields_fit. simpl in *.
  pose proof (Z.mod_pos_bound total 86400000000 ltac:(lia)) as Hrem.
  pose proof (Z.mod_pos_bound total 1000000 ltac:(lia)) as Hus.
  set (rem := total mod 86400000000) in *.
  assert (0 <= rem / 1000000 < 86400) as Hsec
    by (split; [apply Z.div_pos|apply Z.div_lt_upper_bound]; lia).
  set (secs := rem / 1000000) in *.
  pose proof (Z.mod_pos_bound secs 3600 ltac:(lia)).
  pose proof (Z.mod_pos_bound secs 60 ltac:(lia)).
  assert (0 <= secs / 3600 < 24)
    by (split; [apply Z.div_pos|apply Z.div_lt_upper_bound]; lia).
  assert (0 <= secs mod 3600 / 60 < 60)
    by (split; [apply Z.div_pos|apply Z.div_lt_upper_bound]; lia).
  lia.
Qed.

Lemma is_digit_digit n : is_digit (digit n) = true.
Proof.
  unfold digit.
  pose proof (Z.mod_pos_bound n 10 ltac:(lia)) as Hn.
  assert (Hk : (Z.to_nat (n mod 10) < 10)%nat) by lia.
  destruct (Z.to_nat (n mod 10)) as [|[|[|[|[|[|[|[|[|[|k]]]]]]]]]]; try reflexivity.
  lia.
Qed.

Lemma year_text_from_1000 y : 1000 <= y → year_text y = zero_padded 4 y.
Proof.
  intros Hy. unfold year_text.
  by rewrite !(proj2 (Z.ltb_ge _ _)) by lia.
Qed.

(** Cutting the last three characters leaves the milliseconds. *)
Lemma drop_microseconds d :
  drop_last 3 (strftime d) +:+ "Z" = millisecond_rendering d.
Proof.
  unfold strftime, millisecond_rendering, year_text.
  destruct (year d <? 10); [|destruct (year d <? 100); [|destruct (year d <? 1000)]];
    cbv [drop_last zero_padded String.append String.length
         String.substring Nat.sub];
    rewrite !Zdiv.Zdiv_Zdiv by lia; reflexivity.
Qed.



Lemma valid_fields d :
  valid d = true →
  1 <= year d <= 9999 ∧ 1 <= month d <= 12 ∧
  1 <= day d <= _days_in_month (year d) (month d) ∧
  0 <= hour d < 24 ∧ 0 <= minute d < 60 ∧ 0 <= second d < 60 ∧
  0 <= microsecond d < 1000000.
Proof. unfold valid. rewrite !andb_true_iff. lia. Qed.





Section rendering.
Context {other : Type}.
Variable local_utcoffset : datetime → raised + Z.
Variable DjangoJSONEncoder_default : other → raised + string.

End rendering.



Example offset_is_removed :
  encode (at_offset 3600000000 2024 3 1 0 30 0 999999)
  = inr "2024-02-29T23:30:00.999Z".
Proof. vm_compute. reflexivity. Qed.

(** A naive value is rendered only if the local zone can be looked up. *)
Example naive_lookup_can_raise :
  DatetimeSafeDjangoJSONEncoder_default (other := Empty_set)
    (fun naive => inl ValueError) (fun o => inl TypeError)
    (PyDatetime {| year := 1; month := 1; day := 1; hour := 0; minute := 0;
                   second := 0; microsecond := 0; utcoffset := None |})
  = inl ValueError.
Proof. reflexivity. Qed.

(** *** Further properties of the encoder *)

(** Every date of the years 1..400 comes back from its ordinal. *)
Lemma first_cycle_round_trips :
  forallb (fun y =>
    forallb (fun m =>
      forallb (fun d => round_trips (Z.of_nat y) (Z.of_nat m) (Z.of_nat d))
        (seq 1 31)) (seq 1 12)) (seq 1 400) = true.
Proof. vm_compute. reflexivity. Qed.

Lemma forallb_seq (P : nat → bool) (lo len : nat) :
  forallb P (seq lo len) = true → ∀ k, (lo <= k < lo + len)%nat → P k = true.
Proof. intros H k Hk. rewrite forallb_forall in H. apply H, in_seq. lia. Qed.

Lemma first_cycle y m d :
  1 <= y <= 400 → 1 <= m <= 12 → 1 <= d <= _days_in_month y m →
  1 <= _ymd2ord y m d <= _DI400Y ∧ _ord2ymd (_ymd2ord y m d) = (y, m, d).
Proof.
  intros Hy Hm Hd.
  assert (Hd31 : d <= 31).
  { unfold _days_in_month in Hd. destruct ((m =? 2) && _is_leap y); [lia|].
    assert (Hcases : m = 1 ∨ m = 2 ∨ m = 3 ∨ m = 4 ∨ m = 5 ∨ m = 6 ∨ m = 7 ∨
                     m = 8 ∨ m = 9 ∨ m = 10 ∨ m = 11 ∨ m = 12) by lia.
    repeat (destruct Hcases as [->|Hcases]; [simpl in Hd; lia|]).
    subst. simpl in Hd. lia. }
  assert (Hrt : round_trips y m d = true).
  { pose proof (forallb_seq _ _ _ first_cycle_round_trips (Z.to_nat y) ltac:(lia)) as H1.
    pose proof (forallb_seq _ _ _ H1 (Z.to_nat m) ltac:(lia)) as H2.
    pose proof (forallb_seq _ _ _ H2 (Z.to_nat d) ltac:(lia)) as H3.
    clear H1 H2. cbv beta in H3. rewrite !Z2Nat.id in H3 by lia. exact H3. }
  unfold round_trips, _DI400Y in *. cbv zeta in Hrt.
  destruct (_ord2ymd (_ymd2ord y m d)) as [[y' m'] d'].
  apply orb_true_iff in Hrt as [Hrt|Hrt]; [apply negb_true_iff in Hrt; lia|].
  apply andb_true_iff in Hrt
    as [[H1 H2]%andb_true_iff [[H3 H4]%andb_true_iff H5]%andb_true_iff].
  split; [lia|]. f_equal; [f_equal|]; lia.
Qed.

Lemma _is_leap_period y k : _is_leap (y + 400 * k) = _is_leap y.
Proof.
  unfold _is_leap.
  replace ((y + 400 * k) mod 4) with (y mod 4)
    by (replace (y + 400 * k) with (y + (100 * k) * 4) by lia; by rewrite Z_mod_plus_full).
  replace ((y + 400 * k) mod 100) with (y mod 100)
    by (replace (y + 400 * k) with (y + (4 * k) * 100) by lia; by rewrite Z_mod_plus_full).
  replace ((y + 400 * k) mod 400) with (y mod 400)
    by (replace (y + 400 * k) with (y + k * 400) by lia; by rewrite Z_mod_plus_full).
  done.
Qed.

Lemma _ymd2ord_period y m d k :
  _ymd2ord (y + 400 * k) m d = _ymd2ord y m d + _DI400Y * k.
Proof.
  unfold _ymd2ord, _days_before_month, _days_before_year, _DI400Y.
  rewrite _is_leap_period. cbv zeta.
  replace ((y + 400 * k - 1) / 4) with ((y - 1) / 4 + 100 * k)
    by (replace (y + 400 * k - 1) with (y - 1 + (100 * k) * 4) by lia;
        by rewrite Z.div_add by lia).
  replace ((y + 400 * k - 1) / 100) with ((y - 1) / 100 + 4 * k)
    by (replace (y + 400 * k - 1) with (y - 1 + (4 * k) * 100) by lia;
        by rewrite Z.div_add by lia).
  replace ((y + 400 * k - 1) / 400) with ((y - 1) / 400 + k)
    by (replace (y + 400 * k - 1) with (y - 1 + k * 400) by lia;
        by rewrite Z.div_add by lia).
  lia.
Qed.

Lemma _ord2ymd_period n k :
  1 <= n <= _DI400Y →
  _ord2ymd (n + _DI400Y * k) =
  let '(y, m, d) := _ord2ymd n in (y + 400 * k, m, d).
Proof.
  intros Hn. unfold _ord2ymd, _DI400Y in *. cbv zeta.
  replace (n + 146097 * k - 1) with (n - 1 + k * 146097) by lia.
  rewrite Z.div_add, Z_mod_plus_full by lia.
  rewrite (Z.div_small (n - 1)) by lia. rewrite (Z.mod_small (n - 1)) by lia.
  destruct (_ || _).
  - f_equal. f_equal. lia.
  - destruct (month_and_day _ _). f_equal. f_equal. lia.
Qed.

Lemma _ord2ymd__ymd2ord y m d :
  1 <= y → 1 <= m <= 12 → 1 <= d <= _days_in_month y m →
  _ord2ymd (_ymd2ord y m d) = (y, m, d).
Proof.
  intros Hy Hm Hd.
  pose proof (Z.div_mod (y - 1) 400 ltac:(lia)) as Hdiv.
  pose proof (Z.mod_pos_bound (y - 1) 400 ltac:(lia)) as Hmod.
  set (k := (y - 1) / 400) in *. set (y0 := (y - 1) mod 400 + 1).
  assert (Hyk : y = y0 + 400 * k) by (unfold y0; lia).
  assert (Hd0 : 1 <= d <= _days_in_month y0 m).
  { unfold _days_in_month in *. by rewrite Hyk, _is_leap_period in Hd. }
  destruct (first_cycle y0 m d) as [Hrange Hback]; [unfold y0; lia|done|done|].
  rewrite Hyk, _ymd2ord_period, _ord2ymd_period by done. by rewrite Hback.
Qed.

Lemma day_of_year_le y m d :
  1 <= m <= 12 → 1 <= d <= _days_in_month y m →
  1 <= _days_before_month y m + d <= (if _is_leap y then 366 else 365).
Proof.
  intros Hm Hd. unfold _days_before_month, _days_in_month in *.
  assert (Hcases : m = 1 ∨ m = 2 ∨ m = 3 ∨ m = 4 ∨ m = 5 ∨ m = 6 ∨ m = 7 ∨
                   m = 8 ∨ m = 9 ∨ m = 10 ∨ m = 11 ∨ m = 12) by lia.
  destruct (_is_leap y);
    repeat (destruct Hcases as [->|Hcases]; [simpl in *; lia|]);
    subst; simpl in *; lia.
Qed.

Lemma _ymd2ord_range y m d :
  1 <= y <= 9999 → 1 <= m <= 12 → 1 <= d <= _days_in_month y m →
  1 <= _ymd2ord y m d <= _MAXORDINAL.
Proof.
  intros Hy Hm Hd. pose proof (day_of_year_le y m d Hm Hd) as Hdoy.
  unfold _ymd2ord, _MAXORDINAL.
  set (doy := _days_before_month y m + d) in *.
  replace (_days_before_year y + _days_before_month y m + d)
    with (_days_before_year y + doy) by (unfold doy; lia).
  destruct (decide (y = 9999)) as [->|Hne].
  - change (_is_leap 9999) with false in Hdoy.
    change (_days_before_year 9999) with 3651694. lia.
  - assert (doy <= 366) by (destruct (_is_leap y); lia).
    unfold _days_before_year. cbv zeta.
    pose proof (Z.div_mod (y - 1) 4 ltac:(lia)).
    pose proof (Z.mod_pos_bound (y - 1) 4 ltac:(lia)).
    pose proof (Z.div_mod (y - 1) 100 ltac:(lia)).
    pose proof (Z.mod_pos_bound (y - 1) 100 ltac:(lia)).
    pose proof (Z.div_mod (y - 1) 400 ltac:(lia)).
    pose proof (Z.mod_pos_bound (y - 1) 400 ltac:(lia)).
    lia.
Qed.

(** The conversion leaves a value that is already in UTC as it is. *)
Lemma minus_offset_zero d :
  valid d = true → utcoffset d = Some 0 → minus_offset d 0 = Some d.
Proof.
  intros Hv Hoff. apply valid_fields in Hv as Hf.
  destruct Hf as (Hy & Hm & Hd & Hh & Hmi & Hs & Hus).
  pose proof (_ymd2ord_range _ _ _ Hy Hm Hd) as Hord.
  pose proof (_ord2ymd__ymd2ord (year d) (month d) (day d) ltac:(lia) Hm Hd) as Hback.
  unfold minus_offset, US_PER_DAY, _MAXORDINAL in *. cbv zeta.
  assert (Htotal : utc_microseconds d 0 =
            86400000000 * _ymd2ord (year d) (month d) (day d)
            + (1000000 * (hour d * 3600 + minute d * 60 + second d)
               + microsecond d)) by (unfold utc_microseconds; lia).
  set (ord := _ymd2ord (year d) (month d) (day d)) in *.
  set (tod := hour d * 3600 + minute d * 60 + second d) in *.
  assert (Htod : 0 <= tod < 86400) by (unfold tod; lia).
  assert (Hdays : utc_microseconds d 0 / 86400000000 = ord).
  { symmetry. apply (Z.div_unique _ _ _ (1000000 * tod + microsecond d)); [lia|].
    by rewrite Htotal. }
  assert (Hrem : utc_microseconds d 0 mod 86400000000 = 1000000 * tod + microsecond d).
  { symmetry. apply (Z.mod_unique _ _ ord); [lia|]. by rewrite Htotal. }
  assert (Hsec : (1000000 * tod + microsecond d) / 1000000 = tod).
  { symmetry. apply (Z.div_unique _ _ _ (microsecond d)); lia. }
  assert (Hmicro : utc_microseconds d 0 mod 1000000 = microsecond d).
  { symmetry. apply (Z.mod_unique _ _ (86400 * ord + tod)); lia. }
  rewrite Hdays, Hrem, Hsec, Hmicro, Hback.
  rewrite (proj2 (andb_true_iff _ _)) by (split; lia).
  assert (Hhour : tod / 3600 = hour d).
  { symmetry. apply (Z.div_unique _ _ _ (minute d * 60 + second d)); unfold tod; lia. }
  assert (Hrest : tod mod 3600 = minute d * 60 + second d).
  { symmetry. apply (Z.mod_unique _ _ (hour d)); unfold tod; lia. }
  assert (Hminute : (minute d * 60 + second d) / 60 = minute d).
  { symmetry. apply (Z.div_unique _ _ _ (second d)); lia. }
  assert (Hsecond : tod mod 60 = second d).
  { symmetry. apply (Z.mod_unique _ _ (hour d * 60 + minute d)); unfold tod; lia. }
  rewrite Hhour, Hrest, Hminute, Hsecond, <- Hoff. by destruct d.
Qed.

Section utc_values.
Context {other : Type}.
Variable local_utcoffset : datetime → raised + Z.
Variable DjangoJSONEncoder_default : other → raised + string.

(** X9.  An aware datetime that is already in UTC is not changed by the
    conversion: it is rendered with its own year, month, day, hour, minute
    and second, and its microseconds cut to milliseconds. *)
Theorem utc_datetime_keeps_its_fields (d : datetime) :
  valid d = true → utcoffset d = Some 0 →
  astimezone_UTC_0 local_utcoffset d = inr d ∧
  DatetimeSafeDjangoJSONEncoder_default local_utcoffset DjangoJSONEncoder_default
    (PyDatetime d) = inr (millisecond_rendering d).
Proof.
  intros Hv Hoff.
  assert (Hutc : astimezone_UTC_0 local_utcoffset d = inr d).
  { unfold astimezone_UTC_0, offset_from_utc. rewrite Hoff.
    by rewrite minus_offset_zero. }
  split; [done|]. unfold DatetimeSafeDjangoJSONEncoder_default.
  by rewrite Hutc, drop_microseconds.
Qed.
End utc_values.

Lemma digit_inj a b : digit a = digit b → a mod 10 = b mod 10.
Proof.
  unfold digit. intros H.
  pose proof (Z.mod_pos_bound a 10 ltac:(lia)).
  pose proof (Z.mod_pos_bound b 10 ltac:(lia)).
  apply (f_equal nat_of_ascii) in H.
  rewrite !nat_ascii_embedding in H by lia. lia.
Qed.


Lemma digit_is_no_dash n : digit n ≠ "-"%char.
Proof.
  intros H. pose proof (is_digit_digit n) as Hd. rewrite H in Hd. done.
Qed.

Lemma decimal_4 x y :
  0 <= x < 10000 → 0 <= y < 10000 →
  x mod 10 = y mod 10 → x / 10 mod 10 = y / 10 mod 10 →
  x / 10 / 10 mod 10 = y / 10 / 10 mod 10 →
  x / 10 / 10 / 10 mod 10 = y / 10 / 10 / 10 mod 10 → x = y.
Proof.
  intros Hx Hy E0 E1 E2 E3.
  pose proof (Z.div_mod x 10 ltac:(lia)).
  pose proof (Z.mod_pos_bound x 10 ltac:(lia)).
  pose proof (Z.div_mod (x / 10) 10 ltac:(lia)).
  pose proof (Z.mod_pos_bound (x / 10) 10 ltac:(lia)).
  pose proof (Z.div_mod (x / 10 / 10) 10 ltac:(lia)).
  pose proof (Z.mod_pos_bound (x / 10 / 10) 10 ltac:(lia)).
  pose proof (Z.div_mod (x / 10 / 10 / 10) 10 ltac:(lia)).
  pose proof (Z.mod_pos_bound (x / 10 / 10 / 10) 10 ltac:(lia)).
  pose proof (Z.div_mod y 10 ltac:(lia)).
  pose proof (Z.mod_pos_bound y 10 ltac:(lia)).
  pose proof (Z.div_mod (y / 10) 10 ltac:(lia)).
  pose proof (Z.mod_pos_bound (y / 10) 10 ltac:(lia)).
  pose proof (Z.div_mod (y / 10 / 10) 10 ltac:(lia)).
  pose proof (Z.mod_pos_bound (y / 10 / 10) 10 ltac:(lia)).
  pose proof (Z.div_mod (y / 10 / 10 / 10) 10 ltac:(lia)).
  pose proof (Z.mod_pos_bound (y / 10 / 10 / 10) 10 ltac:(lia)).
  assert (Hx4 : x / 10 / 10 / 10 / 10 = 0).
  { rewrite !Zdiv.Zdiv_Zdiv by lia. apply Z.div_small. lia. }
  assert (Hy4 : y / 10 / 10 / 10 / 10 = 0).
  { rewrite !Zdiv.Zdiv_Zdiv by lia. apply Z.div_small. lia. }
  lia.
Qed.

Lemma decimal_3 x y :
  0 <= x < 1000 → 0 <= y < 1000 →
  x mod 10 = y mod 10 → x / 10 mod 10 = y / 10 mod 10 →
  x / 10 / 10 mod 10 = y / 10 / 10 mod 10 → x = y.
Proof.
  intros Hx Hy E0 E1 E2.
  assert (Hsmall : ∀ z, 0 <= z < 1000 → z / 10 / 10 / 10 = 0).
  { intros z Hz. rewrite !Zdiv.Zdiv_Zdiv by lia. apply Z.div_small. lia. }
  apply decimal_4; try lia; try done.
  by rewrite (Hsmall x), (Hsmall y) by lia.
Qed.

Lemma decimal_2 x y :
  0 <= x < 100 → 0 <= y < 100 →
  x mod 10 = y mod 10 → x / 10 mod 10 = y / 10 mod 10 → x = y.
Proof.
  intros Hx Hy E0 E1.
  assert (Hsmall : ∀ z, 0 <= z < 100 → z / 10 / 10 = 0).
  { intros z Hz. rewrite !Zdiv.Zdiv_Zdiv by lia. apply Z.div_small. lia. }
  apply decimal_3; try lia; try done.
  by rewrite (Hsmall x), (Hsmall y) by lia.
Qed.

Lemma decimal_1 x y :
  0 <= x < 10 → 0 <= y < 10 → x mod 10 = y mod 10 → x = y.
Proof. intros Hx Hy. rewrite !Z.mod_small by lia. done. Qed.

Lemma millisecond_rendering_inj (a b : datetime) :
  fields_fit a → fields_fit b →
  millisecond_rendering a = millisecond_rendering b →
  year a = year b ∧ month a = month b ∧ day a = day b ∧ hour a = hour b ∧
  minute a = minute b ∧ second a = second b ∧
  microsecond a / 1000 = microsecond b / 1000.
Proof.
  intros Ha Hb. unfold fields_fit in *.
  assert (0 <= microsecond a / 1000 < 1000)
    by (split; [apply Z.div_pos|apply Z.div_lt_upper_bound]; lia).
  assert (0 <= microsecond b / 1000 < 1000)
    by (split; [apply Z.div_pos|apply Z.div_lt_upper_bound]; lia).
  unfold millisecond_rendering, year_text.
  destruct (Z.ltb_spec (year a) 10);
    [|destruct (Z.ltb_spec (year a) 100); [|destruct (Z.ltb_spec (year a) 1000)]];
    (destruct (Z.ltb_spec (year b) 10);
      [|destruct (Z.ltb_spec (year b) 100); [|destruct (Z.ltb_spec (year b) 1000)]]);
    cbv [zero_padded String.append]; intros Heq; simplify_eq;
    try (exfalso;
         match goal with
         | H : digit _ = "-"%char |- _ => exact (digit_is_no_dash _ H)
         | H : "-"%char = digit _ |- _ => exact (digit_is_no_dash _ (eq_sym H))
         end);
    repeat match goal with H : digit _ = digit _ |- _ => apply digit_inj in H end;
    repeat split;
    first [ by apply decimal_1; [lia|lia|]
          | by apply decimal_2; [lia|lia| |]
          | by apply decimal_3; [lia|lia| | |]
          | by apply decimal_4; [lia|lia| | | |] ].
Qed.

Section injective.
Context {other : Type}.
Variable local_utcoffset : datetime → raised + Z.
Variable DjangoJSONEncoder_default : other → raised + string.

(** X10.  Two aware UTC datetimes with the same rendering agree in every
    field down to the millisecond: the text loses nothing but the last three
    digits of the microseconds. *)
Theorem utc_rendering_is_injective (a b : datetime) :
  valid a = true → valid b = true → utcoffset a = Some 0 → utcoffset b = Some 0 →
  DatetimeSafeDjangoJSONEncoder_default local_utcoffset DjangoJSONEncoder_default
    (PyDatetime a) =
  DatetimeSafeDjangoJSONEncoder_default local_utcoffset DjangoJSONEncoder_default
    (PyDatetime b) →
  year a = year b ∧ month a = month b ∧ day a = day b ∧ hour a = hour b ∧
  minute a = minute b ∧ second a = second b ∧
  microsecond a / 1000 = microsecond b / 1000.
Proof.
  intros Hva Hvb Hoa Hob.
  unfold DatetimeSafeDjangoJSONEncoder_default, astimezone_UTC_0, offset_from_utc.
  rewrite Hoa, Hob, !minus_offset_zero, !drop_microseconds by done.
  intros [= Henc]. apply millisecond_rendering_inj; [| |done].
  - eapply minus_offset_fields_fit. by apply minus_offset_zero.
  - eapply minus_offset_fields_fit. by apply minus_offset_zero.
Qed.
End injective.

(** The theorem on 2023-06-22T23:12:34.567891 UTC. *)
Lemma utc_datetime_keeps_its_fields_witness :
  encode (at_utc 2023 6 22 23 12 34 567891) = inr "2023-06-22T23:12:34.567Z".
Proof.
  assert (Hvalid : valid (at_utc 2023 6 22 23 12 34 567891) = true)
    by (vm_compute; reflexivity).
  destruct (utc_datetime_keeps_its_fields (other := Empty_set)
              (fun naive => inl ValueError) (fun o => inl TypeError)
              (at_utc 2023 6 22 23 12 34 567891) Hvalid eq_refl) as [_ Henc].
  unfold encode. rewrite Henc. vm_compute. reflexivity.
Defined.

(** The theorem on two instants of the same millisecond. *)
Lemma utc_rendering_is_injective_witness :
  567000 / 1000 = 567999 / 1000.
Proof.
  assert (Ha : valid (at_utc 2023 6 22 23 12 34 567000) = true)
    by (vm_compute; reflexivity).
  assert (Hb : valid (at_utc 2023 6 22 23 12 34 567999) = true)
    by (vm_compute; reflexivity).
  assert (Henc : encode (at_utc 2023 6 22 23 12 34 567000)
                 = encode (at_utc 2023 6 22 23 12 34 567999))
    by (vm_compute; reflexivity).
  apply (utc_rendering_is_injective (other := Empty_set)
           (fun naive => inl ValueError) (fun o => inl TypeError) _ _ Ha Hb
           eq_refl eq_refl Henc).
Defined.

End Encoder.

(** ** The import command *)

Module ImportCommand.

Inductive exception :=
| IntegrityError (detail : string)
| OtherError (detail : string).

(** Line 36. *)
Definition warningText : string :=
  ">> Are you restoring from a backup of the same version of Sentry?" +:+ String "010" ""
  +:+ ">> Are you restoring onto a clean database?" +:+ String "010" ""
  +:+ ">> If so then this IntegrityError might be our fault, you can open an issue here:"
  +:+ String "010" ""
  +:+ ">> https://github.com/getsentry/sentry/issues/new/choose".

Section import.
(** A deserialized object and the state of the [default] database. *)
Context {DeserializedObject Database : Type}.
(** [obj.object._meta.app_label] *)
Variable app_label : DeserializedObject → string.
(** [obj.save()] on a database: the new state, or the exception raised. *)
Variable save : DeserializedObject → Database → exception + Database.
(** Running the statements printed by [sqlsequencereset] for every app. *)
Variable sequence_reset : Database → Database.

(** What the command leaves behind: the database and what was echoed to
    the error stream. *)
Record world := { database : Database; stderr : list string }.

(** Lines 28-30.  The stream handed out by [serializers.deserialize] is a
    list whose items are objects or the exception raised on reaching them. *)
Fixpoint save_each (src : list (exception + DeserializedObject)) (db : Database) :
    exception + Database :=
  match src with
  | [] => inr db
  | inl e :: _ => inl e
  | inr obj :: rest =>
      if bool_decide (app_label obj ∉ Resolver.EXCLUDED_APPS) then
        match save obj db with
        | inr db' => save_each rest db'
        | inl e => inl e
        end
      else save_each rest db
  end.

(** [with transaction.atomic("default"): body]: the writes of [body] are
    committed when it ends normally and rolled back when it raises. *)
Definition atomic (body : Database → exception + Database) (db : Database) :
    option exception * Database :=
  match body db with
  | inr db' => (None, db')
  | inl e => (Some e, db)
  end.

(** Lines 25-51.  The first component is the exception that leaves the
    command, if any.  The commit at the end of the [atomic] block and the
    sequence reset of lines 43-51, which runs after it, are taken not to
    raise. *)
Definition import_ (src : list (exception + DeserializedObject)) (w : world) :
    option exception * world :=
  match atomic (save_each src) (database w) with
  | (Some (IntegrityError detail), db) =>
      (Some (IntegrityError detail),
       {| database := db; stderr := stderr w ++ [warningText] |})
  | (Some e, db) => (Some e, {| database := db; stderr := stderr w |})
  | (None, db) =>
      (None, {| database := sequence_reset db; stderr := stderr w |})
  end.

(** The items of the stream that reach [obj.save()] or raise. *)
Definition reaches_save (item : exception + DeserializedObject) : bool :=
  match item with
  | inl _ => true
  | inr obj => bool_decide (app_label obj ∉ Resolver.EXCLUDED_APPS)
  end.



Lemma save_each_reaches_save (src : list (exception + DeserializedObject)) :
  ∀ db, save_each (List.filter reaches_save src) db
        = save_each src db.
Proof.
  induction src as [|[e|obj] src IH]; intros db; simpl; try done.
  destruct (bool_decide (app_label obj ∉ Resolver.EXCLUDED_APPS)) eqn:Happ; simpl.
  - rewrite Happ. by destruct (save obj db).
  - apply IH.
Qed.

(** X6.  Objects of the excluded apps never reach [save]: the import of a
    document is the import of the document without them. *)
Theorem excluded_objects_are_never_saved
    (src : list (exception + DeserializedObject)) (w : world) :
  import_ (List.filter reaches_save src) w
  = import_ src w.
Proof. unfold import_, atomic. by rewrite save_each_reaches_save. Qed.

End import.

Arguments database {_} _.
Arguments stderr {_} _.



End ImportCommand.

(** ** The export command *)

Module ExportCommand.
Import Resolver.

(** Lines 175-178: [None] is the omitted option. *)
Definition exclude_list (exclude : option string) : list string :=
  match exclude with
  | None => []
  | Some names => Text.split "," (Text.lower names)
  end.

(** Lines 183-187. *)
Definition skips (exclude : list string) (model : Model) : bool :=
  negb (include_in_export model)
  || bool_decide (Text.lower (object_name (ident model)) ∈ exclude)
  || meta_proxy model.

(** Line 189. *)
Definition skip_notice (model : Model) : string :=
  ">> Skipping model <" +:+ object_name (ident model) +:+ ">".

Section export.
(** A stored instance; [queryset model] is
    [model._base_manager.order_by(model._meta.pk.name).iterator()]. *)
Context {Instance_ : Type}.
Variable queryset : Model → list Instance_.

(** Lines 180-193 over the classes handed out by [sort_dependencies]: the
    objects yielded and the notices echoed to the error stream. *)
Fixpoint yield_objects (silent : bool) (exclude : list string)
    (models : list Model) : list Instance_ * list string :=
  match models with
  | [] => ([], [])
  | model :: rest =>
      let '(objects, notices) := yield_objects silent exclude rest in
      if skips exclude model then
        (objects,
         (if silent then []
          else [">> Skipping model <" +:+ object_name (ident model) +:+ ">"])
         ++ notices)
      else (queryset model ++ objects, notices)
  end.

(** The class behind an identity of the registry. *)
Definition model_class (apps : list AppConfig) (m : ModelId) : list Model :=
  List.filter (fun model => bool_decide (ident model = m)) (discovered apps).

(** Lines 172-204, up to the serializer: the objects handed to
    [serialize] and the error stream, or the error of the resolver. *)
Definition export (apps : list AppConfig) (silent : bool) (exclude : option string) :
    outcome + list Instance_ * list string :=
  match sort_dependencies apps with
  | Return model_list =>
      let '(objects, notices) :=
        yield_objects silent (exclude_list exclude)
          (flat_map (model_class apps) model_list) in
      inr (objects, (if silent then [] else [">> Beginning export"]) ++ notices)
  | failure => inl failure
  end.
End export.

Lemma lower_ascii_comma c :
  Ascii.eqb (Text.lower_ascii c) "," = Ascii.eqb c ",".
Proof. by destruct c as [[] [] [] [] [] [] [] []]. Qed.

Lemma split_lower s :
  Text.split "," (Text.lower s) = Text.lower <$> Text.split "," s.
Proof.
  induction s as [|c s IH]; [done|]. simpl.
  rewrite lower_ascii_comma. destruct (Ascii.eqb c ","); simpl; [by rewrite IH|].
  rewrite IH. by destruct (Text.split "," s).
Qed.

(** C10.  A model that is includable and no proxy is skipped exactly when
    its class name equals, letter case aside, one of the comma-separated
    entries of the [exclude] option; without the option no model is skipped
    for its name. *)
Theorem exclude_is_case_insensitive (model : Model) :
  (∀ names entry,
     entry ∈ Text.split "," names →
     Text.lower entry = Text.lower (object_name (ident model)) →
     skips (exclude_list (Some names)) model = true) ∧
  (∀ names,
     include_in_export model = true → meta_proxy model = false →
     skips (exclude_list (Some names)) model = true →
     ∃ entry, entry ∈ Text.split "," names ∧
              Text.lower entry = Text.lower (object_name (ident model))) ∧
  skips (exclude_list None) model = negb (include_in_export model) || meta_proxy model.
Proof.
  split; [|split].
  - intros names entry Hin Heq. unfold skips, exclude_list.
    rewrite split_lower, <- Heq.
    rewrite (bool_decide_true (_ ∈ _)); [by rewrite orb_true_r|].
    apply list_elem_of_fmap. by exists entry.
  - intros names Hinc Hproxy. unfold skips, exclude_list.
    rewrite Hinc, Hproxy, split_lower, orb_false_r. simpl.
    intros Hin%bool_decide_eq_true.
    apply list_elem_of_fmap in Hin as (entry & Heq & Hin). by exists entry.
  - unfold skips, exclude_list.
    rewrite (bool_decide_false (_ ∈ [])); [by rewrite orb_false_r|].
    apply not_elem_of_nil.
Qed.

Example exclude_mixed_case :
  skips (exclude_list (Some "USER,OrganizationMember")) (plain "sentry" "User" []) = true ∧
  skips (exclude_list (Some "USER,OrganizationMember"))
    (plain "sentry" "organizationMEMBER" []) = true ∧
  skips (exclude_list (Some "USER,OrganizationMember")) (plain "sentry" "Team" []) = false ∧
  skips (exclude_list None) (plain "sentry" "User" []) = false.
Proof. repeat split; by vm_compute. Qed.

(** The theorem on [--exclude USER,Team] and the model [User]. *)
Lemma exclude_is_case_insensitive_witness :
  skips (exclude_list (Some "USER,Team")) (plain "sentry" "User" []) = true.
Proof.
  apply (proj1 (exclude_is_case_insensitive _) "USER,Team" "USER").
  - vm_compute. left.
  - by vm_compute.
Defined.

(** *** Further properties of the export *)

Section export_order.
Context {Instance_ : Type}.
Variable queryset : Model → list Instance_.

(** X7.  [yield_objects] yields the instances of the models that are not
    skipped, model after model in the order given, and nothing else; unless
    silenced it echoes one notice for each skipped model.  The objects do not
    depend on [silent]. *)
Theorem yield_objects_spec (silent : bool) (exclude : list string) (models : list Model) :
  yield_objects queryset silent exclude models =
  (flat_map queryset (List.filter (fun model => negb (skips exclude model)) models),
   if silent then []
   else skip_notice <$> List.filter (skips exclude) models).
Proof.
  induction models as [|model rest IH]; simpl; [by destruct silent|].
  rewrite IH. destruct (skips exclude model); simpl; [|done].
  by destruct silent.
Qed.

Lemma filter_none {A} (P : A → bool) (l : list A) :
  (∀ y, y ∈ l → P y = false) → List.filter P l = [].
Proof.
  induction l as [|x l IH]; intros H; [done|]. simpl.
  rewrite (H x) by left. apply IH. intros y Hy. apply H. by right.
Qed.

Lemma model_class_unique (apps : list AppConfig) (model : Model) :
  NoDup (ident <$> discovered apps) → model ∈ discovered apps →
  model_class apps (ident model) = [model].
Proof.
  unfold model_class. generalize (discovered apps). intros l.
  induction l as [|x l IH]; intros Hnd Hin; [by apply elem_of_nil in Hin|].
  rewrite fmap_cons in Hnd. apply NoDup_cons in Hnd as [Hx Hnd]. simpl.
  apply elem_of_cons in Hin as [->|Hin].
  - rewrite bool_decide_true by done. f_equal.
    apply filter_none. intros y Hy. apply bool_decide_eq_false.
    intros Heq. apply Hx. rewrite <- Heq. apply list_elem_of_fmap. by exists y.
  - rewrite bool_decide_false; [by apply IH|].
    intros Heq. apply Hx. rewrite Heq. apply list_elem_of_fmap. by exists model.
Qed.

Lemma split_at_two {A} (l : list A) i j b a :
  i < j → l !! i = Some b → l !! j = Some a →
  ∃ l1 l2 l3, l = l1 ++ b :: l2 ++ a :: l3.
Proof.
  intros Hij Hi Hj.
  exists (take i l), (take (j - S i) (drop (S i) l)), (drop (S j) l).
  rewrite <- (take_drop_middle l i b Hi) at 1. f_equal. f_equal.
  assert (Hj' : drop (S i) l !! (j - S i) = Some a).
  { rewrite lookup_drop. by replace (S i + (j - S i)) with j by lia. }
  rewrite <- (take_drop_middle _ _ a Hj') at 1. f_equal. f_equal.
  rewrite drop_drop. f_equal. lia.
Qed.

(** X8.  In what [export] hands to the serializer, the instances of a model
    come after the instances of every exported model it depends on. *)
Theorem export_writes_dependencies_first (apps : list AppConfig) (silent : bool)
    (exclude : option string) (objects : list Instance_) (notices : list string)
    (A B : Model) :
  NoDup (ident <$> discovered apps) →
  export queryset apps silent exclude = inr (objects, notices) →
  A ∈ discovered apps → B ∈ discovered apps →
  ident B ∈ model_deps A →
  skips (exclude_list exclude) A = false →
  skips (exclude_list exclude) B = false →
  ∃ l1 l2 l3, objects = l1 ++ queryset B ++ l2 ++ queryset A ++ l3.
Proof.
  intros Hnd Hexport HA HB Hdep HsA HsB. unfold export in Hexport.
  pose proof (sort_dependencies_returns_iff_acyclic apps Hnd) as Hsort.
  destruct (sort_dependencies apps) as [model_list| |] eqn:Hrun; try done.
  destruct Hsort as (Hacyc & _).
  destruct (sort_work_list_sound (collect_models apps) (collect_dependencies apps))
    as (result & Hres & _ & Hmem & Hfirst); try done.
  { unfold collect_dependencies. by rewrite <- list_fmap_compose. }
  { intros m. unfold collect_models, collect_dependencies.
    by rewrite elem_of_list_to_set, <- list_fmap_compose. }
  unfold sort_dependencies in Hrun. rewrite Hrun in Hres. injection Hres as <-.
  assert (HAm : ident A ∈ model_list).
  { apply Hmem. unfold collect_models. rewrite elem_of_list_to_set.
    apply list_elem_of_fmap. by exists A. }
  apply list_elem_of_lookup in HAm as [j Hj].
  destruct (Hfirst j (ident A) (model_deps A) (ident B) Hj) as (i & Hij & Hi); [|done| |].
  { unfold collect_dependencies. apply list_elem_of_fmap. by exists A. }
  { unfold collect_models. rewrite elem_of_list_to_set.
    apply list_elem_of_fmap. by exists B. }
  destruct (split_at_two model_list i j _ _ Hij Hi Hj) as (p1 & p2 & p3 & ->).
  rewrite yield_objects_spec in Hexport. injection Hexport as <- _.
  set (classes := flat_map (model_class apps)).
  set (kept := List.filter (fun model => negb (skips (exclude_list exclude) model))).
  assert (Hsplit : classes (p1 ++ ident B :: p2 ++ ident A :: p3)
                   = classes p1 ++ B :: classes p2 ++ A :: classes p3).
  { unfold classes. rewrite flat_map_app. simpl. rewrite flat_map_app. simpl.
    by rewrite !model_class_unique by done. }
  rewrite Hsplit. unfold kept.
  rewrite List.filter_app. simpl. rewrite HsB. simpl.
  rewrite List.filter_app. simpl. rewrite HsA. simpl.
  rewrite flat_map_app. simpl. rewrite flat_map_app. simpl.
  by eexists _, _, _.
Qed.
End export_order.

(** A store in which each model holds one instance, its class name. *)
Definition one_instance (model : Model) : list string := [object_name (ident model)].

(** The theorem on [chain_apps]: [B] refers to [A]. *)
Lemma export_writes_dependencies_first_witness :
  ∃ l1 l2 l3, ["A"; "B"; "C"; "D"] = l1 ++ ["A"] ++ l2 ++ ["B"] ++ l3.
Proof.
  apply (export_writes_dependencies_first one_instance chain_apps true None
           ["A"; "B"; "C"; "D"] [] (plain "app" "B" [in_app "A"]) (plain "app" "A" [])).
  - apply (bool_decide_unpack _). vm_compute. reflexivity.
  - vm_compute. reflexivity.
  - apply list_elem_of_In. vm_compute. right. left. reflexivity.
  - apply list_elem_of_In. vm_compute. right. right. left. reflexivity.
  - vm_compute. left.
  - reflexivity.
  - reflexivity.
Defined.



End ExportCommand.

(** ** The comparator framework

    [sentry/backup/comparators.py] and [sentry/backup/findings.py] are not
    among the sources; what follows is written from the specification and
    checked against [tests/sentry/backup/test_comparators.py]. *)

Module Comparators.

(** Modelled from the spec: the payload types are missing.  A field value of
    a serialized instance is a string or a list of strings. *)
Inductive JSONValue :=
| JSONString (s : string)
| JSONList (items : list string).

(** One entry of a snapshot: [{"model": ..., "pk": ..., "fields": {...}}]
    and, once scrubbed, the mapping under the reserved key ["scrubbed"]. *)
Record JSONData := {
  model : string;
  pk : Z;
  fields : gmap string JSONValue;
  scrubbed : gmap string (list string);
}.

(** Modelled from the spec: [sentry.backup.findings] is missing.  The
    addressing tuple (model name, primary key) and the report built on it. *)
Record InstanceID := { id_model : string; id_pk : Z }.

Record Finding := { on : InstanceID; kind : string; reason : string }.

(** Modelled from the spec: the comparator classes are missing.  A comparator
    is its identifier, the fields it owns and its obfuscation transform, which
    yields a sequence of strings also for a scalar value. *)
Record Comparator := {
  kind_of : string;
  owned : list string;
  obfuscate : JSONValue → list string;
}.

(** [s[:n]] and [s[-n:]] *)
Definition first_chars (n : nat) (s : string) : string := String.substring 0 n s.

Definition last_chars (n : nat) (s : string) : string :=
  String.substring (String.length s - n) n s.

(** The text before the first [sep] and, when there is one, the text after. *)
Fixpoint partition_at (sep : ascii) (s : string) : string * option string :=
  match s with
  | EmptyString => (EmptyString, None)
  | String c rest =>
      if Ascii.eqb c sep then (EmptyString, Some rest)
      else let '(before, after) := partition_at sep rest in (String c before, after)
  end.

(** Modelled from the spec: the email transform is missing.  It keeps the
    first character of the local part and the last [keep] characters of the
    domain and puts the ellipsis markers between them. *)
Definition mask_email (keep : nat) (s : string) : string :=
  let '(local_part, domain) := partition_at "@" s in
  first_chars 1 local_part +:+ "...@..." +:+ last_chars keep (default "" domain).

(** Modelled from the spec: the email transform with the width that the
    spec's example and the tests show, [alpha@example.com -> a...@...le.com]. *)
Definition obfuscate_email (s : string) : string := mask_email 6 s.

(** The email transform as the spec words it: the last three characters of
    the domain. *)
Definition obfuscate_email_as_worded (s : string) : string := mask_email 3 s.

(** Modelled from the spec: a prefix and a suffix of [width] characters
    around the ellipsis marker. *)
Definition mask_hash (width : nat) (s : string) : string :=
  first_chars width s +:+ "..." +:+ last_chars width s.

Definition email_transform (v : JSONValue) : list string :=
  match v with
  | JSONString s => [obfuscate_email s]
  | JSONList items => obfuscate_email <$> items
  end.

(** Modelled from the spec: the hash transform is missing.  A scalar keeps
    three characters at each end; of a list the first entry keeps one
    character at each end and every later entry becomes the bare marker.
    The tests have one list, whose later entry is also its shortest, so they
    fit this rule by position without singling it out. *)
Definition hash_transform (v : JSONValue) : list string :=
  match v with
  | JSONString s => [mask_hash 3 s]
  | JSONList [] => []
  | JSONList (first :: later) => mask_hash 1 first :: ((fun _ => "...") <$> later)
  end.

(** Modelled from the spec: the spec names no transform for dates; a date is
    masked whole. *)
Definition date_transform (v : JSONValue) : list string :=
  match v with
  | JSONString _ => ["..."]
  | JSONList items => (fun _ => "...") <$> items
  end.

Definition DateUpdatedComparator (field : string) : Comparator :=
  {| kind_of := "DateUpdatedComparator"; owned := [field];
     obfuscate := date_transform |}.

Definition EmailObfuscatingComparator (one many : string) : Comparator :=
  {| kind_of := "EmailObfuscatingComparator"; owned := [one; many];
     obfuscate := email_transform |}.

Definition HashObfuscatingComparator (one many : string) : Comparator :=
  {| kind_of := "HashObfuscatingComparator"; owned := [one; many];
     obfuscate := hash_transform |}.

(** Modelled from the spec: the reason of a missing field names the side
    that lacks it, and the field.  The wording itself is not given; the
    tests ask for the side and the field name to occur in it. *)
Definition missing_reason (side field : string) : string :=
  "the " +:+ side +:+ " `" +:+ field +:+ "` value was missing".

(** Modelled from the spec: [existence] for one owned field. *)
Definition existence_on (cmp : Comparator) (id : InstanceID) (left right : JSONData)
    (field : string) : list Finding :=
  match fields left !! field, fields right !! field with
  | None, None => []
  | Some _, Some _ => []
  | None, Some _ =>
      [ {| on := id; kind := kind_of cmp; reason := missing_reason "left" field |} ]
  | Some _, None =>
      [ {| on := id; kind := kind_of cmp; reason := missing_reason "right" field |} ]
  end.

(** Modelled from the spec: [existence(id, left, right)]. *)
Definition existence (cmp : Comparator) (id : InstanceID) (left right : JSONData) :
    list Finding :=
  flat_map (existence_on cmp id left right) (owned cmp).

(** Lists are compared position by position; an unmatched tail differs. *)
Fixpoint lists_differ (l r : list string) : bool :=
  match l, r with
  | [], [] => false
  | x :: l', y :: r' => negb (String.eqb x y) || lists_differ l' r'
  | _, _ => true
  end.

Definition differ (lv rv : JSONValue) : bool :=
  match lv, rv with
  | JSONString a, JSONString b => negb (String.eqb a b)
  | JSONList a, JSONList b => lists_differ a b
  | _, _ => true
  end.

Definition shown (values : list string) : string := Text.join ", " values.

Definition mismatch_reason (field : string) (lv rv : list string) : string :=
  "the left value (" +:+ shown lv +:+ ") of `" +:+ field
  +:+ "` was not equal to the right value (" +:+ shown rv +:+ ")".

(** Both sides carry [field] and the values differ. *)
Definition mismatching (left right : JSONData) (field : string) : bool :=
  match fields left !! field, fields right !! field with
  | Some lv, Some rv => differ lv rv
  | _, _ => false
  end.

Definition mismatch_finding (cmp : Comparator) (id : InstanceID)
    (left right : JSONData) (field : string) : Finding :=
  {| on := id; kind := kind_of cmp;
     reason := mismatch_reason field
                 (obfuscate cmp (default (JSONList []) (fields left !! field)))
                 (obfuscate cmp (default (JSONList []) (fields right !! field))) |}.

(** Modelled from the spec: [compare(id, left, right)] of the two
    obfuscating variants, one finding for each owned field that mismatches. *)
Definition compare (cmp : Comparator) (id : InstanceID) (left right : JSONData) :
    list Finding :=
  mismatch_finding cmp id left right
    <$> List.filter (mismatching left right) (owned cmp).

Definition scrub_key (cmp : Comparator) (field : string) : string :=
  kind_of cmp +:+ "::" +:+ field.

(** One step of [scrub]: the entry for [field], read from the fields
    [source] of the instance. *)
Definition scrub_field (cmp : Comparator) (source : gmap string JSONValue)
    (record : gmap string (list string)) (field : string) :
    gmap string (list string) :=
  match source !! field with
  | Some v => <[scrub_key cmp field := obfuscate cmp v]> record
  | None => record
  end.

(** Modelled from the spec: what [scrub] does to one side. *)
Definition scrub_side (cmp : Comparator) (side : JSONData) : JSONData :=
  {| model := model side; pk := pk side; fields := fields side;
     scrubbed := foldl (scrub_field cmp (fields side)) (scrubbed side) (owned cmp) |}.

(** Modelled from the spec: [scrub(left, right)], the two snapshots after the
    call. *)
Definition scrub (cmp : Comparator) (left right : JSONData) : JSONData * JSONData :=
  (scrub_side cmp left, scrub_side cmp right).

(** The strings held by a field value. *)
Definition values (v : JSONValue) : list string :=
  match v with
  | JSONString s => [s]
  | JSONList items => items
  end.

(** The strings [field] holds on either side. *)
Definition raw_values (left right : JSONData) (field : string) : list string :=
  values (default (JSONList []) (fields left !! field))
  ++ values (default (JSONList []) (fields right !! field)).

Fixpoint no_at (s : string) : bool :=
  match s with
  | EmptyString => true
  | String c rest => negb (Ascii.eqb c "@") && no_at rest
  end.

Fixpoint last_char (prev : ascii) (s : string) : ascii :=
  match s with
  | EmptyString => prev
  | String c rest => last_char c rest
  end.

(** An address: a local part that is not empty and does not end in a dot,
    one [@], a domain. *)
Definition email_like (s : string) : bool :=
  match partition_at "@" s with
  | (String c local_part, Some domain) =>
      negb (Ascii.eqb (last_char c local_part) ".") && no_at domain
  | _ => false
  end.

(** Every [@] of [s] comes right after a dot, [prev] being the character
    before [s]. *)
Fixpoint guarded (prev : ascii) (s : string) : bool :=
  match s with
  | EmptyString => true
  | String c rest => (negb (Ascii.eqb c "@") || Ascii.eqb prev ".") && guarded c rest
  end.

Definition always_guarded (s : string) : Prop := ∀ p, guarded p s = true.

(** The owned field, if any, whose entry sits under [key]. *)
Definition scrubbed_from (cmp : Comparator) (source : gmap string JSONValue)
    (key : string) (owned_fields : list string) : option string :=
  List.find (fun f => bool_decide (key = scrub_key cmp f ∧ is_Some (source !! f)))
    owned_fields.

(** *** The instances of the tests *)

Definition test_1 : InstanceID := {| id_model := "test"; id_pk := 1 |}.

Definition instance (entries : list (string * JSONValue)) : JSONData :=
  {| model := "test"; pk := 1; fields := list_to_map entries; scrubbed := ∅ |}.

Definition date_present : JSONData :=
  instance [("my_date_field", JSONString "2023-06-22T23:12:34.567Z")].
Definition date_missing : JSONData := instance [].

Definition email_left : JSONData :=
  instance [("one_email", JSONString "alpha@example.com");
            ("many_emails", JSONList ["bravo@example.com"; "charlie@example.com"])].
Definition email_right : JSONData :=
  instance [("one_email", JSONString "alice@testing.com");
            ("many_emails", JSONList ["brian@testing.com"; "charlie@example.com"])].

Definition hash_left : JSONData :=
  instance [("one_hash", JSONString "1239fe0ab0afc39b");
            ("many_hashes", JSONList ["190dae4e"; "1234"])].
Definition hash_right : JSONData :=
  instance [("one_hash", JSONString "1249fe0ab0afc39c");
            ("many_hashes", JSONList ["290dae4f"; "1234"])].

(** *** Text of the findings *)

Lemma guarded_append p a b :
  guarded p (a +:+ b) = guarded p a && guarded (last_char p a) b.
Proof.
  revert p. induction a as [|c a IH]; intros p; [done|].
  change (guarded p (String c (a +:+ b))
          = guarded p (String c a) && guarded (last_char c a) b).
  simpl. rewrite IH. by rewrite andb_assoc.
Qed.

Lemma always_guarded_append a b :
  always_guarded a → always_guarded b → always_guarded (a +:+ b).
Proof. intros Ha Hb p. by rewrite guarded_append, Ha, Hb. Qed.

Lemma no_at_guarded s : no_at s = true → always_guarded s.
Proof.
  induction s as [|c s IH]; intros Hs p; [done|]. simpl in *.
  apply andb_true_iff in Hs as [-> Hs]. simpl. by apply IH.
Qed.

Lemma always_guarded_join sep parts :
  always_guarded sep → Forall always_guarded parts →
  always_guarded (Text.join sep parts).
Proof.
  intros Hsep. unfold Text.join. induction 1 as [|x parts Hx Hparts IH]; [done|].
  destruct parts as [|y parts]; [done|].
  change (always_guarded (x +:+ sep +:+ String.concat sep (y :: parts))).
  by repeat apply always_guarded_append.
Qed.

Lemma guarded_prefix x s p :
  String.prefix x s = true → guarded p s = true → guarded p x = true.
Proof.
  revert s p. induction x as [|a x IH]; intros [|b s] p; simpl; try done.
  destruct (ascii_dec a b) as [->|]; [|done].
  intros Hpre [-> Hg]%andb_true_iff. simpl. by eapply IH.
Qed.

Lemma guarded_contains x s p :
  Text.contains x s = true → guarded p s = true → ∃ q, guarded q x = true.
Proof.
  revert p. induction s as [|c s IH]; intros p; cbn [Text.contains]; intros Hc Hs.
  - rewrite orb_false_r in Hc. exists p. by eapply guarded_prefix.
  - apply orb_true_iff in Hc as [Hc|Hc].
    + exists p. by eapply guarded_prefix.
    + simpl in Hs. apply andb_true_iff in Hs as [_ Hs]. by eapply IH.
Qed.

Lemma partition_at_spec s before after :
  partition_at "@" s = (before, Some after) →
  s = before +:+ String "@" after ∧ no_at before = true.
Proof.
  revert before. induction s as [|c s IH]; intros before; simpl; [done|].
  destruct (Ascii.eqb c "@") eqn:E.
  - apply Ascii.eqb_eq in E as ->. by intros [= <- <-].
  - destruct (partition_at "@" s) as [b a]. intros [= <- ->].
    destruct (IH b eq_refl) as [-> Hb]. split; [done|]. simpl. by rewrite E.
Qed.

Lemma partition_at_no_at s : no_at (partition_at "@" s).1 = true.
Proof.
  induction s as [|c s IH]; simpl; [done|].
  destruct (Ascii.eqb c "@") eqn:E; [done|].
  destruct (partition_at "@" s) as [b a]. simpl in *. by rewrite E.
Qed.

Lemma email_like_not_guarded s q : email_like s = true → guarded q s = false.
Proof.
  unfold email_like. destruct (partition_at "@" s) as [[|c local_part] [domain|]] eqn:E;
    try done.
  intros [Hlast _]%andb_true_iff. apply partition_at_spec in E as [-> _].
  rewrite guarded_append. apply andb_false_iff. right. simpl.
  apply negb_true_iff in Hlast. by rewrite Hlast.
Qed.

Lemma no_at_substring n m s : no_at s = true → no_at (String.substring n m s) = true.
Proof.
  revert n m. induction s as [|c s IH]; intros n m Hs; [by destruct n, m|].
  simpl in Hs. apply andb_true_iff in Hs as [Hc Hs].
  destruct n as [|n]; simpl.
  - destruct m as [|m]; [done|]. simpl. rewrite Hc. by apply IH.
  - by apply IH.
Qed.

Lemma mask_email_guarded keep s :
  email_like s = true → always_guarded (mask_email keep s).
Proof.
  unfold email_like, mask_email. pose proof (partition_at_no_at s) as Hlocal.
  destruct (partition_at "@" s) as [[|c local_part] [domain|]]; try done.
  intros [_ Hdomain]%andb_true_iff.
  apply always_guarded_append; [by apply no_at_guarded, no_at_substring|].
  apply (always_guarded_append "...@..."); [by intros p|].
  by apply no_at_guarded, no_at_substring.
Qed.

Lemma email_transform_guarded v :
  Forall (fun s => email_like s = true) (values v) →
  Forall always_guarded (email_transform v).
Proof.
  destruct v as [s|items]; simpl.
  - intros [H _]%Forall_cons. constructor; [|done]. by apply mask_email_guarded.
  - intros H. apply Forall_fmap. eapply Forall_impl; [exact H|].
    intros s Hs. by apply mask_email_guarded.
Qed.

Lemma mismatch_reason_guarded field lv rv :
  no_at field = true → Forall always_guarded lv → Forall always_guarded rv →
  always_guarded (mismatch_reason field lv rv).
Proof.
  intros Hf Hl Hr. unfold mismatch_reason, shown.
  repeat (apply always_guarded_append;
          [first [by intros p | by apply no_at_guarded
                 | by apply always_guarded_join; [intros p|]]|]).
  by intros p.
Qed.

Lemma mismatch_reason_contains field lv rv x :
  x ∈ lv ++ rv → Text.contains x (mismatch_reason field lv rv) = true.
Proof.
  unfold mismatch_reason, shown. intros [Hx|Hx]%elem_of_app.
  - apply Text.contains_append_l, Text.contains_append_r. by apply Text.contains_join.
  - do 5 apply Text.contains_append_l.
    apply Text.contains_append_r. by apply Text.contains_join.
Qed.

(** *** Existence *)

(** What [existence] reports for one owned field: nothing when both sides or
    neither side hold it, else one finding that carries the comparator's
    identifier and whose reason names the side that lacks the field, and the
    field. *)
Lemma existence_on_names_the_missing_side (cmp : Comparator) (id : InstanceID)
    (left right : JSONData) (field : string) :
  match fields left !! field, fields right !! field with
  | None, Some _ =>
      ∃ finding, existence_on cmp id left right field = [finding] ∧
        on finding = id ∧ kind finding = kind_of cmp ∧
        Text.contains "left" (reason finding) = true ∧
        Text.contains field (reason finding) = true
  | Some _, None =>
      ∃ finding, existence_on cmp id left right field = [finding] ∧
        on finding = id ∧ kind finding = kind_of cmp ∧
        Text.contains "right" (reason finding) = true ∧
        Text.contains field (reason finding) = true
  | _, _ => existence_on cmp id left right field = []
  end.
Proof.
  unfold existence_on.
  destruct (fields left !! field), (fields right !! field); try done.
  - eexists. split; [done|]. split; [done|]. split; [done|]. split.
    + apply (Text.contains_append "the " "right").
    + apply (Text.contains_append "the right `" field).
  - eexists. split; [done|]. split; [done|]. split; [done|]. split.
    + apply (Text.contains_append "the " "left").
    + apply (Text.contains_append "the left `" field).
Qed.

(** The findings of [existence] are those of its owned fields, in their
    order. *)
Lemma existence_goes_field_by_field (cmp : Comparator) (id : InstanceID)
    (left right : JSONData) :
  existence cmp id left right = concat (existence_on cmp id left right <$> owned cmp).
Proof.
  unfold existence. induction (owned cmp) as [|field rest IH]; [done|].
  simpl. by rewrite IH.
Qed.

(** What [test_good_comparator_neither_side_existing] and
    [test_bad_comparator_only_one_side_existing] check. *)
Example test_comparator_existence :
  existence (DateUpdatedComparator "my_date_field") test_1 date_missing date_missing = [] ∧
  (∃ finding,
     existence (DateUpdatedComparator "my_date_field") test_1 date_missing date_present
       = [finding] ∧
     on finding = test_1 ∧ kind finding = "DateUpdatedComparator" ∧
     Text.contains "left" (reason finding) = true ∧
     Text.contains "my_date_field" (reason finding) = true) ∧
  (∃ finding,
     existence (DateUpdatedComparator "my_date_field") test_1 date_present date_missing
       = [finding] ∧
     on finding = test_1 ∧ kind finding = "DateUpdatedComparator" ∧
     Text.contains "right" (reason finding) = true ∧
     Text.contains "my_date_field" (reason finding) = true).
Proof.
  split; [reflexivity|].
  split; eexists; (split; [reflexivity|]); by vm_compute.
Qed.

(** *** Comparison *)

Lemma email_transform_values v : email_transform v = obfuscate_email <$> values v.
Proof. by destruct v. Qed.

Lemma partition_at_append before after :
  no_at before = true →
  partition_at "@" (before +:+ String "@" after) = (before, Some after).
Proof.
  induction before as [|c before IH]; intros Hb; [done|].
  simpl in Hb. apply andb_true_iff in Hb as [Hc Hb].
  change (partition_at "@" (String c (before +:+ String "@" after))
          = (String c before, Some after)).
  simpl. apply negb_true_iff in Hc. by rewrite Hc, IH.
Qed.

(** C7 (as amended).  The email comparator emits one finding for each owned
    field whose values differ.  The reason shows every value of that field
    through the transform that keeps the first character of the local part
    and the last six characters of the domain, and holds none of the
    addresses themselves. *)
Theorem email_mismatch_is_reported_obfuscated (one many : string) (id : InstanceID)
    (left right : JSONData) :
  no_at one = true → no_at many = true →
  (∀ field, field ∈ [one; many] →
     Forall (fun raw => email_like raw = true) (raw_values left right field)) →
  compare (EmailObfuscatingComparator one many) id left right
    = mismatch_finding (EmailObfuscatingComparator one many) id left right
        <$> List.filter (mismatching left right) [one; many] ∧
  (∀ local_part domain, no_at local_part = true →
     obfuscate_email (local_part +:+ String "@" domain)
     = first_chars 1 local_part +:+ "...@..." +:+ last_chars 6 domain) ∧
  ∀ finding, finding ∈ compare (EmailObfuscatingComparator one many) id left right →
    ∃ field, field ∈ [one; many] ∧ mismatching left right field = true ∧
      on finding = id ∧ kind finding = "EmailObfuscatingComparator" ∧
      (∀ raw, raw ∈ raw_values left right field →
         Text.contains (obfuscate_email raw) (reason finding) = true) ∧
      (∀ other raw, other ∈ [one; many] → raw ∈ raw_values left right other →
         Text.contains raw (reason finding) = false).
Proof.
  intros Hone Hmany Hlike. split; [done|]. split.
  { intros local_part domain Hl. unfold obfuscate_email, mask_email.
    by rewrite partition_at_append. }
  intros finding Hin. unfold compare in Hin. simpl owned in Hin.
  apply list_elem_of_fmap in Hin as (field & -> & Hin).
  apply list_elem_of_In, filter_In in Hin as [Hin Hmis].
  apply list_elem_of_In in Hin.
  exists field. split; [done|]. split; [done|]. split; [done|]. split; [done|].
  cbn [reason mismatch_finding obfuscate EmailObfuscatingComparator].
  rewrite !email_transform_values. split.
  - intros raw Hraw. apply mismatch_reason_contains.
    unfold raw_values in Hraw. rewrite <- fmap_app.
    apply list_elem_of_fmap. by exists raw.
  - intros other raw Hother Hraw.
    destruct (Text.contains raw _) eqn:Hc; [|done]. exfalso.
    apply (guarded_contains _ _ "."%char) in Hc as [q Hq].
    + rewrite email_like_not_guarded in Hq; [done|].
      specialize (Hlike other Hother). rewrite Forall_forall in Hlike. by apply Hlike.
    + apply mismatch_reason_guarded.
      * apply elem_of_cons in Hin as [->|Hin]; [done|].
        by apply list_elem_of_singleton in Hin as ->.
      * rewrite <- email_transform_values. apply email_transform_guarded.
        specialize (Hlike field Hin). unfold raw_values in Hlike.
        by apply Forall_app in Hlike as [? _].
      * rewrite <- email_transform_values. apply email_transform_guarded.
        specialize (Hlike field Hin). unfold raw_values in Hlike.
        by apply Forall_app in Hlike as [_ ?].
Qed.

(** The theorem on the instances of [test_bad_email_obfuscating_comparator]. *)
Lemma email_mismatch_is_reported_obfuscated_witness :
  Forall (fun finding => Text.contains "alpha@example.com" (reason finding) = false)
    (compare (EmailObfuscatingComparator "one_email" "many_emails") test_1
       email_left email_right).
Proof.
  apply Forall_forall. intros finding Hin.
  destruct (email_mismatch_is_reported_obfuscated "one_email" "many_emails" test_1
              email_left email_right eq_refl eq_refl) as (_ & _ & Hall).
  - intros field Hfield. apply (bool_decide_unpack _).
    apply elem_of_cons in Hfield as [->|Hfield]; [by vm_compute|].
    apply list_elem_of_singleton in Hfield as ->. by vm_compute.
  - destruct (Hall finding Hin) as (field & _ & _ & _ & _ & _ & Hraw).
    apply (Hraw "one_email"); [left|]. vm_compute. left.
Defined.

(** C7, the claim as stated fails: the reason for [alpha@example.com] holds
    [a...@...le.com], which is not the address cut to the last three
    characters of its domain. *)
Lemma email_reason_keeps_six_domain_characters :
  obfuscate_email_as_worded "alpha@example.com" = "a...@...com" ∧
  ∃ finding later,
    compare (EmailObfuscatingComparator "one_email" "many_emails") test_1
      email_left email_right = finding :: later ∧
    Text.contains "a...@...le.com" (reason finding) = true ∧
    Text.contains "a...@...ng.com" (reason finding) = true ∧
    Text.contains (obfuscate_email_as_worded "alpha@example.com") (reason finding)
      = false.
Proof. split; [reflexivity|]. eexists _, _. split; [reflexivity|]. by vm_compute. Qed.

Example test_bad_email_obfuscating_comparator :
  compare (EmailObfuscatingComparator "one_email" "many_emails") test_1
    email_left email_right
  = [ {| on := test_1; kind := "EmailObfuscatingComparator";
         reason := "the left value (a...@...le.com) of `one_email` was not equal to the right value (a...@...ng.com)" |};
      {| on := test_1; kind := "EmailObfuscatingComparator";
         reason := "the left value (b...@...le.com, c...@...le.com) of `many_emails` was not equal to the right value (b...@...ng.com, c...@...le.com)" |} ] ∧
  compare (EmailObfuscatingComparator "one_email" "many_emails") test_1
    email_left email_left = [].
Proof. split; reflexivity. Qed.

(** *** Scrubbing *)

Lemma append_inj_r (prefix a b : string) : prefix +:+ a = prefix +:+ b → a = b.
Proof.
  induction prefix as [|c prefix IH]; [done|].
  change (String c (prefix +:+ a) = String c (prefix +:+ b) → a = b).
  intros [= H]. by apply IH.
Qed.

Lemma scrub_key_inj cmp f g : scrub_key cmp f = scrub_key cmp g → f = g.
Proof.
  unfold scrub_key. intros H%append_inj_r. by apply (append_inj_r "::") in H.
Qed.

Lemma scrub_field_lookup cmp source record f key :
  scrub_field cmp source record f !! key =
  if bool_decide (key = scrub_key cmp f ∧ is_Some (source !! f))
  then obfuscate cmp <$> source !! f
  else record !! key.
Proof.
  unfold scrub_field. destruct (source !! f) as [v|] eqn:Hf.
  - case_bool_decide as Hk.
    + destruct Hk as [-> _]. by rewrite lookup_insert_eq.
    + rewrite lookup_insert_ne; [done|]. intros <-. apply Hk. by split.
  - rewrite bool_decide_false; [done|]. intros [_ []]. done.
Qed.

Lemma scrub_fields_lookup cmp source owned_fields :
  ∀ record key,
    foldl (scrub_field cmp source) record owned_fields !! key =
    match scrubbed_from cmp source key owned_fields with
    | Some f => obfuscate cmp <$> source !! f
    | None => record !! key
    end.
Proof.
  unfold scrubbed_from.
  induction owned_fields as [|f owned_fields IH]; intros record key; [done|].
  simpl. rewrite IH, scrub_field_lookup.
  destruct (List.find _ owned_fields) as [g|] eqn:Hfind.
  - apply find_some in Hfind as [_ Hg]. apply bool_decide_eq_true in Hg as [Hg _].
    case_bool_decide as Hf; [|done]. destruct Hf as [Hf _].
    by rewrite (scrub_key_inj cmp f g) by congruence.
  - by case_bool_decide.
Qed.

Lemma scrub_side_idempotent cmp side :
  scrub_side cmp (scrub_side cmp side) = scrub_side cmp side.
Proof.
  unfold scrub_side. simpl. f_equal. apply map_eq. intros key.
  rewrite !scrub_fields_lookup. by destruct (scrubbed_from _ _ _ _).
Qed.

Lemma scrub_side_records cmp side field v :
  field ∈ owned cmp → fields side !! field = Some v →
  scrubbed (scrub_side cmp side) !! (kind_of cmp +:+ "::" +:+ field)
  = Some (obfuscate cmp v).
Proof.
  intros Hin Hv. unfold scrub_side. simpl. rewrite scrub_fields_lookup.
  unfold scrubbed_from.
  destruct (List.find _ (owned cmp)) as [g|] eqn:Hfind.
  - apply find_some in Hfind as [_ Hg]. apply bool_decide_eq_true in Hg as [Hg _].
    apply scrub_key_inj in Hg as <-. by rewrite Hv.
  - exfalso. apply list_elem_of_In in Hin.
    apply (find_none _ _ Hfind) in Hin. apply bool_decide_eq_false in Hin.
    apply Hin. split; [done|]. by rewrite Hv.
Qed.

Lemma scrub_side_keeps_other_keys cmp side key :
  (∀ field, field ∈ owned cmp → key ≠ kind_of cmp +:+ "::" +:+ field) →
  scrubbed (scrub_side cmp side) !! key = scrubbed side !! key.
Proof.
  intros Hkey. unfold scrub_side. simpl. rewrite scrub_fields_lookup.
  unfold scrubbed_from.
  destruct (List.find _ (owned cmp)) as [g|] eqn:Hfind; [|done].
  apply find_some in Hfind as [Hg Hk]. apply bool_decide_eq_true in Hk as [Hk _].
  by destruct (Hkey g); [apply list_elem_of_In|].
Qed.

(** C9.  Scrubbing a pair that was already scrubbed changes nothing; the
    model, the key and the fields of either side are those before the call;
    the record gains, under [<kind>::<field>], the sequence of obfuscated
    strings of every owned field that is present, and keeps its other
    entries. *)
Theorem scrub_is_idempotent_and_additive (cmp : Comparator) (left right : JSONData) :
  scrub cmp (scrub cmp left right).1 (scrub cmp left right).2 = scrub cmp left right ∧
  Forall2 (fun before after =>
      model after = model before ∧ pk after = pk before ∧
      fields after = fields before ∧
      (∀ field v, field ∈ owned cmp → fields before !! field = Some v →
         scrubbed after !! (kind_of cmp +:+ "::" +:+ field) = Some (obfuscate cmp v)) ∧
      (∀ key, (∀ field, field ∈ owned cmp → key ≠ kind_of cmp +:+ "::" +:+ field) →
         scrubbed after !! key = scrubbed before !! key))
    [left; right] [(scrub cmp left right).1; (scrub cmp left right).2].
Proof.
  split.
  - unfold scrub. simpl. by rewrite !scrub_side_idempotent.
  - repeat constructor; simpl;
      first [by apply scrub_side_records | by apply scrub_side_keeps_other_keys].
Qed.

Example test_good_email_obfuscating_comparator_scrubbed :
  let after := scrub (EmailObfuscatingComparator "one_email" "many_emails")
                 email_left email_right in
  scrubbed after.1 !! "EmailObfuscatingComparator::one_email" = Some ["a...@...le.com"] ∧
  scrubbed after.1 !! "EmailObfuscatingComparator::many_emails"
    = Some ["b...@...le.com"; "c...@...le.com"] ∧
  scrubbed after.2 !! "EmailObfuscatingComparator::one_email" = Some ["a...@...ng.com"] ∧
  scrubbed after.2 !! "EmailObfuscatingComparator::many_emails"
    = Some ["b...@...ng.com"; "c...@...le.com"] ∧
  fields after.1 = fields email_left ∧ fields after.2 = fields email_right.
Proof. repeat split; by vm_compute. Qed.

Example test_good_hash_obfuscating_comparator_scrubbed :
  let after := scrub (HashObfuscatingComparator "one_hash" "many_hashes")
                 hash_left hash_right in
  scrubbed after.1 !! "HashObfuscatingComparator::one_hash" = Some ["123...39b"] ∧
  scrubbed after.1 !! "HashObfuscatingComparator::many_hashes" = Some ["1...e"; "..."] ∧
  scrubbed after.2 !! "HashObfuscatingComparator::one_hash" = Some ["124...39c"] ∧
  scrubbed after.2 !! "HashObfuscatingComparator::many_hashes" = Some ["2...f"; "..."].
Proof. repeat split; by vm_compute. Qed.

Example test_bad_hash_obfuscating_comparator :
  compare (HashObfuscatingComparator "one_hash" "many_hashes") test_1 hash_left hash_right
  = [ {| on := test_1; kind := "HashObfuscatingComparator";
         reason := "the left value (123...39b) of `one_hash` was not equal to the right value (124...39c)" |};
      {| on := test_1; kind := "HashObfuscatingComparator";
         reason := "the left value (1...e, ...) of `many_hashes` was not equal to the right value (2...f, ...)" |} ].
Proof. reflexivity. Qed.

End Comparators.
